(** * Boid simulation: a shallow embedding of the flocking engine

    Numbers are modelled as real numbers (the idealisation of the JS
    [number]s the code computes with).  [THREE.Vector3] is a record of
    three reals and its methods are written out as the library defines
    them, e.g. [normalize] divides by [length() || 1]. *)

From Stdlib Require Import Reals Lra Lia List String Bool.
From Stdlib Require Import Psatz ZArith.
Import ListNotations.
Open Scope R_scope.

(** ** THREE.Vector3 *)

Record Vector3 := mkV { vx : R; vy : R; vz : R }.

Definition vzero : Vector3 := mkV 0 0 0.

(** [a.add(b)] *)
Definition vadd (a b : Vector3) : Vector3 :=
  mkV (vx a + vx b) (vy a + vy b) (vz a + vz b).

(** [a.sub(b)] / [subVectors(a, b)] *)
Definition vsub (a b : Vector3) : Vector3 :=
  mkV (vx a - vx b) (vy a - vy b) (vz a - vz b).

(** [a.multiplyScalar(s)] *)
Definition multiplyScalar (a : Vector3) (s : R) : Vector3 :=
  mkV (vx a * s) (vy a * s) (vz a * s).

(** [a.addScaledVector(v, s)] *)
Definition addScaledVector (a v : Vector3) (s : R) : Vector3 :=
  mkV (vx a + vx v * s) (vy a + vy v * s) (vz a + vz v * s).

(** [a.length()]: [Math.sqrt(x*x + y*y + z*z)] *)
Definition lengthSq (a : Vector3) : R := vx a * vx a + vy a * vy a + vz a * vz a.
Definition length (a : Vector3) : R := sqrt (lengthSq a).

(** JS [l || 1] on a finite number: [0] is falsy. *)
Definition or1 (l : R) : R := if Req_EM_T l 0 then 1 else l.

(** [a.normalize()]: [this.divideScalar(this.length() || 1)] *)
Definition normalize (a : Vector3) : Vector3 :=
  multiplyScalar a (/ or1 (length a)).

(** [a.setLength(l)]: [this.normalize().multiplyScalar(l)] *)
Definition setLength (a : Vector3) (l : R) : Vector3 :=
  multiplyScalar (normalize a) l.

(** [a.distanceTo(b)] *)
Definition distanceTo (a b : Vector3) : R := length (vsub a b).

(** [Math.atan2] on the reals (signed zeros aside). *)
Definition atan2 (y x : R) : R :=
  if Rlt_dec 0 x then atan (y / x)
  else if Rlt_dec x 0 then
    (if Rle_dec 0 y then atan (y / x) + PI else atan (y / x) - PI)
  else if Rlt_dec 0 y then PI / 2
  else if Rlt_dec y 0 then - (PI / 2)
  else 0.

(** ** Boid (src/src/objects/Boid.ts) *)

(** The mesh rotation is fully determined by the two angles that
    [pointInDirection] computes, since it first resets the rotation to
    [(0, 0, 0)] and then applies two fixed-axis rotations. *)
Record Rotation := mkRot { rot_theta : R; rot_phi : R }.

Record Boid := mkBoid {
  id : nat;
  position : Vector3;   (* this.mesh.position *)
  rotation : Rotation;  (* this.mesh.rotation *)
  velocity : Vector3;
  randomBias : Vector3;
}.

Definition set_velocity (b : Boid) (v : Vector3) : Boid :=
  mkBoid (id b) (position b) (rotation b) v (randomBias b).
Definition set_randomBias (b : Boid) (r : Vector3) : Boid :=
  mkBoid (id b) (position b) (rotation b) (velocity b) r.
Definition set_position (b : Boid) (p : Vector3) : Boid :=
  mkBoid (id b) p (rotation b) (velocity b) (randomBias b).
Definition set_rotation (b : Boid) (r : Rotation) : Boid :=
  mkBoid (id b) (position b) r (velocity b) (randomBias b).

(** [Bounds3D]: an axis-aligned box. *)
Record Bounds3D := mkBounds {
  xMin : R; xMax : R; yMin : R; yMax : R; zMin : R; zMax : R;
}.

(** [BoidSimulationParams] (src/unnamed/part_003), with the fields the
    flocking engine reads.  [boidCount] is a JS number: the GUI slider
    [add(simParams, "boidCount", 10, 200)] has no step, so it may be
    fractional. *)
Record BoidSimulationParams := mkParams {
  boidCount : R;
  visibilityThreshold : R;
  maxSpeed : R;
  worldName : string;
  worldDimens : Bounds3D;
  rendering : string;
  randomnessPerTimestep : R;
  randomnessLimit : R;
}.

Record RuleArguments := mkArgs {
  neighbours : list Boid;
  simParams : BoidSimulationParams;
}.

(** A rule is its [calculateVector] method. *)
Definition Rule := Boid -> RuleArguments -> Vector3.

(** [pointInDirection(vector)] *)
Definition pointInDirection (v : Vector3) : Rotation :=
  let phi := atan2 (- vz v) (vx v) in
  let a := sqrt (vx v ^ 2 + vz v ^ 2) in
  let theta := atan2 a (vy v) in
  mkRot theta phi.

(** [capSpeed(maxSpeed)] *)
Definition capSpeed (maxSpeed : R) (b : Boid) : Boid :=
  if Rlt_dec maxSpeed (length (velocity b))
  then set_velocity b (setLength (velocity b) maxSpeed)
  else b.

(** The three [Math.random()] draws of one call of [updateRandomBias]
    are the components of [rnd]. *)
Definition updateRandomBias (rnd : Vector3) (p limit : R) (b : Boid) : Boid :=
  let bias := vadd (randomBias b)
                (mkV (vx rnd * p - p / 2) (vy rnd * p - p / 2) (vz rnd * p - p / 2)) in
  let bias := if Rlt_dec limit (length bias)
              then multiplyScalar bias (/ 100) (* divideScalar(100) *)
              else bias in
  set_randomBias b bias.

(** [addRandomnessToVelocity(ruleArguments)] *)
Definition addRandomnessToVelocity (args : RuleArguments) (rnd : Vector3) (b : Boid) : Boid :=
  let b := updateRandomBias rnd (randomnessPerTimestep (simParams args))
             (randomnessLimit (simParams args)) b in
  set_velocity b (vadd (velocity b) (randomBias b)).

(** [move()]: orientation first, then [position.add(velocity)]. *)
Definition move (b : Boid) : Boid :=
  let b := set_rotation b (pointInDirection (velocity b)) in
  set_position b (vadd (position b) (velocity b)).

(** The rule loop of [updateAndMove]: each rule sees the boid as left by
    the previous rules. *)
Definition applyRules (rules : list Rule) (args : RuleArguments) (b : Boid) : Boid :=
  fold_left (fun b rule => set_velocity b (vadd (velocity b) (rule b args))) rules b.

(** [updateAndMove(rules, ruleArguments)] *)
Definition updateAndMove (rules : list Rule) (args : RuleArguments)
    (rnd : Vector3) (b : Boid) : Boid :=
  let b := applyRules rules args b in
  let b := capSpeed (maxSpeed (simParams args)) b in
  let b := addRandomnessToVelocity args rnd b in
  move b.

(** The per-tick update as the specification words it (section 4.4):
    rules, cap, randomness, integrate, orientation. *)
Module SpecTick.
Definition rules_step (rules : list Rule) (args : RuleArguments) (b : Boid) : Boid :=
  fold_left (fun b rule => set_velocity b (vadd (velocity b) (rule b args))) rules b.
Definition cap_step (m : R) (b : Boid) : Boid :=
  if Rlt_dec m (length (velocity b))
  then set_velocity b (setLength (velocity b) m) else b.
Definition random_step (args : RuleArguments) (rnd : Vector3) (b : Boid) : Boid :=
  let b := updateRandomBias rnd (randomnessPerTimestep (simParams args))
             (randomnessLimit (simParams args)) b in
  set_velocity b (vadd (velocity b) (randomBias b)).
Definition integrate_step (b : Boid) : Boid :=
  set_position b (vadd (position b) (velocity b)).
Definition orient_step (b : Boid) : Boid :=
  set_rotation b (pointInDirection (velocity b)).
Definition tick (rules : list Rule) (args : RuleArguments) (rnd : Vector3) (b : Boid) : Boid :=
  orient_step (integrate_step (random_step args rnd
    (cap_step (maxSpeed (simParams args)) (rules_step rules args b)))).
End SpecTick.

(** ** Rules (src/src/rules) *)

(** Results of a computation that may divide by zero: [None] stands for a
    vector with a non-finite component (NaN or an infinity).  Once a
    component is non-finite, [sub], [normalize] ([NaN || 1] is [1],
    [Infinity / Infinity] is [NaN]) and [multiplyScalar] keep it so. *)
Definition divideScalar (a : Vector3) (s : R) : option Vector3 :=
  if Req_EM_T s 0 then None  (* multiplyScalar(1 / 0): x * Infinity, 0 * Infinity *)
  else Some (multiplyScalar a (/ s)).

Section NeighbourRules.
(** [Boid.toOther] is not among the sources; the two rules are stated
    for every such function.  [fn] is the active dropoff's [fn]. *)
Variable toOther : Boid -> Boid -> Vector3.
Variable fn : R -> R.

(** [SeparationRule.calculateVector] *)
Definition separation_calculateVector (weight : R) (thisBoid : Boid)
    (args : RuleArguments) : option Vector3 :=
  match neighbours args with
  | [] => Some vzero
  | ns =>
    let '(separation, weightSum) :=
      fold_left (fun '(sep, ws) neighbour =>
                   let t := toOther thisBoid neighbour in
                   let w := fn (length t) in
                   (addScaledVector sep t w, ws + w))
                ns (vzero, 0) in
    if Req_EM_T weightSum 0 then Some vzero
    else match divideScalar separation weightSum with
         | None => None
         | Some s => Some (multiplyScalar (normalize s) weight)
         end
  end.

(** [CohesionRule.calculateVector] *)
Definition cohesion_calculateVector (weight : R) (thisBoid : Boid)
    (args : RuleArguments) : option Vector3 :=
  match neighbours args with
  | [] => Some vzero
  | ns =>
    let '(centre, weightSum) :=
      fold_left (fun '(c, ws) neighbour =>
                   let w := fn (length (toOther thisBoid neighbour)) in
                   (addScaledVector c (position neighbour) w, ws + w))
                ns (vzero, 0) in
    match divideScalar centre weightSum with
    | None => None
    | Some c => Some (multiplyScalar (normalize (vsub c (position thisBoid))) weight)
    end
  end.
End NeighbourRules.

(** ** Worlds *)

(** A cylinder obstacle: its base point (only [x] and [z] are read) and
    its radius. *)
Record CylinderDescription := mkCyl { basePoint : Vector3; radius : R }.

(** The fields of a [World] that the code reads: [name] and
    [obstacles.cylinders]. *)
Record World := mkWorld { name : string; cylinders : list CylinderDescription }.

(** [WorldTools.getWorldByName]: [None] is the thrown "World not found.". *)
Fixpoint getWorldByName (worlds : list World) (worldName : string) : option World :=
  match worlds with
  | [] => None
  | world :: rest =>
    if String.eqb (name world) worldName then Some world
    else getWorldByName rest worldName
  end.

(** ** ObstacleAvoidanceRule.calculateVector *)

(** One iteration of the loop over [this.world.obstacles.cylinders];
    [Math.pow(SHARPNESS, e)] is [Rpower] (the base is at least 1). *)
Definition avoidCylinder (sharpness : R) (thisBoid : Boid)
    (cylinder : CylinderDescription) : Vector3 :=
  let adjustedCylinderPosition :=
    mkV (vx (basePoint cylinder)) (vy (position thisBoid)) (vz (basePoint cylinder)) in
  let avoidanceVector := vsub (position thisBoid) adjustedCylinderPosition in
  let distance := length avoidanceVector - radius cylinder in
  let distance := if Rlt_dec distance 0 then 0 else distance in
  let avoidanceMagnitude := Rpower sharpness (- (distance - 10)) in
  setLength avoidanceVector avoidanceMagnitude.

Definition obstacleAvoidance_calculateVector (sharpness weight : R) (world : World)
    (thisBoid : Boid) : Vector3 :=
  let finalVector :=
    fold_left (fun acc cylinder => vadd acc (avoidCylinder sharpness thisBoid cylinder))
              (cylinders world) vzero in
  multiplyScalar finalVector weight.

(** The distance from the cylinder surface that the rule computes. *)
Definition surfaceDistance (thisBoid : Boid) (cylinder : CylinderDescription) : R :=
  let d := length (vsub (position thisBoid)
             (mkV (vx (basePoint cylinder)) (vy (position thisBoid)) (vz (basePoint cylinder))))
           - radius cylinder in
  if Rlt_dec d 0 then 0 else d.

(** ** BoidSimulation (src/unnamed/part_003) *)

Module BoidSimulation.

(** The simulation state read and written by [update]; the scene graph
    (meshes, floor, arena, water, sky) is rendering and left out. *)
Record State := mkState {
  worlds : list World;
  currentWorldName : string;
  currentRendering : string;
  boids : list Boid;
  nextBoidId : nat;
  simParams : BoidSimulationParams;
  obstacleAvoidWorld : World;  (* this.obstacleAvoidRule.world *)
}.

Definition set_boids (st : State) (bs : list Boid) : State :=
  mkState (worlds st) (currentWorldName st) (currentRendering st) bs
          (nextBoidId st) (simParams st) (obstacleAvoidWorld st).

Definition set_worldDimens (p : BoidSimulationParams) (d : Bounds3D) : BoidSimulationParams :=
  mkParams (boidCount p) (visibilityThreshold p) (maxSpeed p) (worldName p) d
           (rendering p) (randomnessPerTimestep p) (randomnessLimit p).

Section Loop.
(** [World.get3DBoundaries()] is not among the sources. *)
Variable get3DBoundaries : World -> Bounds3D.
(** The [Math.random()] draws of one call of the boid generator,
    indexed by the id it is given: a random position and velocity. *)
Variable randomPosAndVel : nat -> Bounds3D -> Vector3 * Vector3.
(** The per-boid update [boid.update(this.rules, ruleArguments)], with
    the world the obstacle-avoidance rule currently holds. *)
Variable boidUpdate : World -> Boid -> RuleArguments -> Boid.

(** [reloadWorld()]; [None] is the exception of [getWorldByName]. *)
Definition reloadWorld (st : State) : option State :=
  match getWorldByName (worlds st) (worldName (simParams st)) with
  | None => None
  | Some world =>
    let p := set_worldDimens (simParams st) (get3DBoundaries world) in
    Some (mkState (worlds st)
            (worldName p)      (* this.currentWorldName = worldName *)
            (rendering p)      (* this.currentRendering = rendering *)
            []                 (* this.boids = [] *)
            (nextBoidId st) p
            world)             (* obstacleAvoidRule.setWorld(world) *)
  end.

(** A boid built by [generateBoidWithRandomPosAndVec(id, ...)]:
    [new Boid(id, ...)] starts with a zero [randomBias] and the mesh's
    initial rotation. *)
Definition generateBoid (boidId : nat) (bounds : Bounds3D) : Boid :=
  let '(p, v) := randomPosAndVel boidId bounds in
  mkBoid boidId p (mkRot 0 0) v vzero.

(** [addBoids k st]: [k] rounds of the first loop of [updateBoidCount]:
    [newBoidId()] then [push]. *)
Fixpoint addBoids (k : nat) (st : State) : State :=
  match k with
  | O => st
  | S k' =>
    let boidId := nextBoidId st in
    let boid := generateBoid boidId (worldDimens (simParams st)) in
    addBoids k' (mkState (worlds st) (currentWorldName st) (currentRendering st)
                   (boids st ++ [boid]) (S boidId) (simParams st)
                   (obstacleAvoidWorld st))
  end.

(** [Array.prototype.pop]: [None] is [undefined]. *)
Definition pop (bs : list Boid) : option (Boid * list Boid) :=
  match rev bs with
  | [] => None
  | b :: r => Some (b, rev r)
  end.

(** [removeBoids k bs]: [k] rounds of the second loop of
    [updateBoidCount]; [undefined] breaks out. *)
Fixpoint removeBoids (k : nat) (bs : list Boid) : list Boid :=
  match k with
  | O => bs
  | S k' =>
    match pop bs with
    | None => bs
    | Some (_, bs') => removeBoids k' bs'
    end
  end.

(** A bound on the rounds of a loop [while (difference > 0)] that
    decrements [difference]: [up x] is an integer above [x]. *)
Definition loopFuel (x : R) : nat := Z.to_nat (up x).

(** The first loop of [updateBoidCount]:
    [while (difference > 0) { newBoidId(); push; difference--; }].
    [fuel] bounds the rounds; with [loopFuel difference] the loop always
    stops on its own condition. *)
Fixpoint addBoidsWhile (fuel : nat) (difference : R) (st : State) : R * State :=
  match fuel with
  | O => (difference, st)
  | S fuel' =>
    if Rlt_dec 0 difference then
      let boidId := nextBoidId st in
      let boid := generateBoid boidId (worldDimens (simParams st)) in
      addBoidsWhile fuel' (difference - 1)
        (mkState (worlds st) (currentWorldName st) (currentRendering st)
           (boids st ++ [boid]) (S boidId) (simParams st) (obstacleAvoidWorld st))
    else (difference, st)
  end.

(** The second loop of [updateBoidCount]:
    [while (difference < 0) { pop, break on undefined; difference++; }]. *)
Fixpoint removeBoidsWhile (fuel : nat) (difference : R) (bs : list Boid) : list Boid :=
  match fuel with
  | O => bs
  | S fuel' =>
    if Rlt_dec difference 0 then
      match pop bs with
      | None => bs
      | Some (_, bs') => removeBoidsWhile fuel' (difference + 1) bs'
      end
    else bs
  end.

(** [updateBoidCount()]: [boidCount === boids.length] compares a number
    with the length; the difference is a real number, possibly
    fractional. *)
Definition updateBoidCount (st : State) : State :=
  if Req_EM_T (boidCount (simParams st)) (INR (List.length (boids st))) then st
  else
    let difference := boidCount (simParams st) - INR (List.length (boids st)) in
    match addBoidsWhile (loopFuel difference) difference st with
    | (difference, st1) =>
      set_boids st1 (removeBoidsWhile (loopFuel (- difference)) difference (boids st1))
    end.

(** [isOtherBoidVisible(other, visibilityThreshold)] *)
Definition isOtherBoidVisible (b other : Boid) (threshold : R) : bool :=
  if Rlt_dec (distanceTo (position b) (position other)) threshold then true else false.

(** [getBoidNeighbours(boid)]: [otherBoid === boid] is object identity;
    every live boid object carries its own id from [newBoidId()], so
    identity is equality of ids. *)
Definition getBoidNeighbours (st : State) (boid : Boid) : list Boid :=
  filter (fun otherBoid =>
            negb (Nat.eqb (id otherBoid) (id boid))
            && isOtherBoidVisible boid otherBoid (visibilityThreshold (simParams st)))
         (boids st).

(** The world check at the start of [update()]. *)
Definition reloadIfNeeded (st : State) : option State :=
  if negb (String.eqb (currentWorldName st) (worldName (simParams st)))
     || negb (String.eqb (currentRendering st) (rendering (simParams st)))
  then reloadWorld st
  else Some st.

(** Everything [update()] does before the first boid is updated. *)
Definition beforeAgentUpdates (st : State) : option State :=
  match reloadIfNeeded st with
  | None => None
  | Some st1 => Some (updateBoidCount st1)
  end.

(** [this.boids.map(boid => boid.update(...))]: boid [i] is updated
    in place, seeing the boids before it already updated. *)
Fixpoint updateBoidsFrom (k i : nat) (st : State) : State :=
  match k with
  | O => st
  | S k' =>
    match nth_error (boids st) i with
    | None => st
    | Some boid =>
      let args := mkArgs (getBoidNeighbours st boid) (simParams st) in
      let boid' := boidUpdate (obstacleAvoidWorld st) boid args in
      let bs := firstn i (boids st) ++ boid' :: skipn (S i) (boids st) in
      updateBoidsFrom k' (S i) (set_boids st bs)
    end
  end.

(** [update()] *)
Definition update (st : State) : option State :=
  match beforeAgentUpdates st with
  | None => None
  | Some st1 => Some (updateBoidsFrom (List.length (boids st1)) 0 st1)
  end.
End Loop.
End BoidSimulation.

(** ** Further code of the cited files *)

(** [WorldTools.getNames] *)
Definition getNames (worlds : list World) : list string := map name worlds.

(** [Math.random() * (max - min) + min] *)
Definition randomBetween (r minV maxV : R) : R := r * (maxV - minV) + minV.

(** The default bounds of [Boid.generateWithRandomPosAndVel]: each
    [options?.positionBounds?.xMin ?? -100] and so on. *)
Definition positionBoundsOrDefault (b : option Bounds3D) : Bounds3D :=
  match b with
  | Some b => b
  | None => mkBounds (-100) 100 0 50 (-100) 100
  end.
Definition velocityBoundsOrDefault (b : option Bounds3D) : Bounds3D :=
  match b with
  | Some b => b
  | None => mkBounds (-0.2) 0.2 (-0.02) 0.02 (-0.2) 0.2
  end.

(** [Boid.generateWithRandomPosAndVel(id, options)]: [rp] and [rv] are the
    three [Math.random()] draws for the position and for the velocity;
    [new Boid] starts with a zero [randomBias] and the mesh's initial
    rotation. *)
Definition generateWithRandomPosAndVel (boidId : nat)
    (positionBounds velocityBounds : option Bounds3D) (rp rv : Vector3) : Boid :=
  let pb := positionBoundsOrDefault positionBounds in
  let vb := velocityBoundsOrDefault velocityBounds in
  mkBoid boidId
    (mkV (randomBetween (vx rp) (xMin pb) (xMax pb))
         (randomBetween (vy rp) (yMin pb) (yMax pb))
         (randomBetween (vz rp) (zMin pb) (zMax pb)))
    (mkRot 0 0)
    (mkV (randomBetween (vx rv) (xMin vb) (xMax vb))
         (randomBetween (vy rv) (yMin vb) (yMax vb))
         (randomBetween (vz rv) (zMin vb) (zMax vb)))
    vzero.

(** [Boid.generateIndividualColour(photorealisticRendering)] with
    [baseColour = { h: 0.602, s: 0.32, l: 0.3 }]; [r] is the
    [Math.random()] draw.  The result is the HSL triple given to
    [setHSL]. *)
Definition generateIndividualColour (photorealisticRendering : bool) (r : R) : R * R * R :=
  let lightnessAdjust := if photorealisticRendering then r * 0.8 else r * 0.4 - 0.2 in
  let l := 0.3 + lightnessAdjust in
  let l := Rmax l 0 in
  let l := Rmin l 1 in
  (0.602, 0.32, l).

(** The boids' ids are pairwise distinct and all below [nextBoidId]. *)
Definition idsFresh (bs : list Boid) (nextId : nat) : Prop :=
  NoDup (map id bs) /\ Forall (fun b => (id b < nextId)%nat) bs.

(** ** Auxiliary definitions for the statements *)

Definition dot (a b : Vector3) : R := vx a * vx b + vy a * vy b + vz a * vz b.

(** The sum of the dropoff weights of the neighbours. *)
Definition dropoffWeightSum (toOther : Boid -> Boid -> Vector3) (fn : R -> R)
    (thisBoid : Boid) (ns : list Boid) : R :=
  fold_left (fun ws n => ws + fn (length (toOther thisBoid n))) ns 0.

(** A dropoff that falls linearly to zero at radius 50. *)
Definition linearDropoff50 (d : R) : R := if Rle_dec 50 d then 0 else 1 - d / 50.

Definition towardsOther (b other : Boid) : Vector3 := vsub (position other) (position b).

(** The planar offset from the cylinder axis. *)
Definition axisOffset (thisBoid : Boid) (cylinder : CylinderDescription) : Vector3 :=
  vsub (position thisBoid)
       (mkV (vx (basePoint cylinder)) (vy (position thisBoid)) (vz (basePoint cylinder))).

(** Concrete inputs. *)
Module Examples.
Definition bounds0 : Bounds3D := mkBounds (-100) 100 0 50 (-100) 100.
Definition params0 : BoidSimulationParams :=
  mkParams 2 25 (1/2) "default"%string bounds0 "Simple"%string (1/100) (1/10).
Definition boidA : Boid := mkBoid 0 vzero (mkRot 0 0) (mkV 1 0 0) vzero.
Definition boidB : Boid := mkBoid 1 (mkV 10 0 0) (mkRot 0 0) vzero vzero.
Definition boidC : Boid := mkBoid 2 (mkV 30 0 0) (mkRot 0 0) vzero vzero.
Definition cyl5 : CylinderDescription := mkCyl vzero 5.
Definition worldDefault : World := mkWorld "default"%string [].
Definition worldObstacles : World := mkWorld "obstacles"%string [cyl5].
Definition boundsOf (w : World) : Bounds3D := bounds0.
Definition draw (i : nat) (b : Bounds3D) : Vector3 * Vector3 :=
  (mkV (INR i) 0 0, mkV 0 0 (1/10)).
(** Two boids and a fractional target of 2.5 boids, as the stepless
    boid-count slider can set. *)
Definition fractional : BoidSimulation.State :=
  BoidSimulation.mkState [worldDefault] "default"%string "Simple"%string
    [boidA; boidB] 3
    (mkParams (5/2) 25 (1/2) "default"%string bounds0 "Simple"%string (1/100) (1/10))
    worldDefault.
(** A simulation whose selected world changed from "default" to
    "obstacles". *)
Definition switched : BoidSimulation.State :=
  BoidSimulation.mkState [worldDefault; worldObstacles] "default"%string "Simple"%string
    [boidA; boidB; boidC] 3
    (mkParams 2 25 (1/2) "obstacles"%string bounds0 "Simple"%string (1/100) (1/10))
    worldDefault.
(** Three boids, target lowered to one. *)
Definition shrinking : BoidSimulation.State :=
  BoidSimulation.mkState [worldDefault] "default"%string "Simple"%string
    [boidA; boidB; boidC] 3
    (mkParams 1 25 (1/2) "default"%string bounds0 "Simple"%string (1/100) (1/10))
    worldDefault.
(** The state of [switched] just before its first boid update, and
    after [reloadWorld]. *)
Definition switchedBeforeAgents : BoidSimulation.State :=
  match BoidSimulation.beforeAgentUpdates boundsOf draw switched with
  | Some s => s
  | None => switched
  end.

Definition switchedReloaded : BoidSimulation.State :=
  match BoidSimulation.reloadWorld boundsOf switched with
  | Some s => s
  | None => switched
  end.

(** A per-boid update with no rules and no random draw. *)
Definition plainUpdate (w : World) (b : Boid) (args : RuleArguments) : Boid :=
  updateAndMove [] args vzero b.

(** The state of [switched] after one whole [update()]. *)
Definition switchedUpdated : BoidSimulation.State :=
  match BoidSimulation.update boundsOf draw plainUpdate switched with
  | Some s => s
  | None => switched
  end.

End Examples.

(** * Properties *)

(** ** Vector facts *)

Lemma lengthSq_nonneg (a : Vector3) : 0 <= lengthSq a.
Proof. unfold lengthSq; nra. Qed.

Lemma length_nonneg (a : Vector3) : 0 <= length a.
Proof. apply sqrt_pos. Qed.

Lemma length_sq (a : Vector3) : length a * length a = lengthSq a.
Proof. apply sqrt_sqrt, lengthSq_nonneg. Qed.

Lemma lengthSq_multiplyScalar (a : Vector3) (s : R) :
  lengthSq (multiplyScalar a s) = Rsqr s * lengthSq a.
Proof. unfold lengthSq, multiplyScalar, Rsqr; simpl; ring. Qed.

Lemma length_multiplyScalar (a : Vector3) (s : R) :
  length (multiplyScalar a s) = Rabs s * length a.
Proof.
  unfold length at 1; rewrite lengthSq_multiplyScalar, sqrt_mult_alt.
  - rewrite sqrt_Rsqr_abs; reflexivity.
  - apply Rle_0_sqr.
Qed.

Lemma length_setLength (a : Vector3) (l : R) :
  length a <> 0 -> length (setLength a l) = Rabs l.
Proof.
  intros Hne. unfold setLength, normalize, or1.
  destruct (Req_EM_T (length a) 0) as [E|_]; [contradiction|].
  rewrite !length_multiplyScalar.
  pose proof (length_nonneg a).
  rewrite (Rabs_right (/ length a)) by (apply Rle_ge, Rlt_le, Rinv_0_lt_compat; lra).
  field_simplify; [reflexivity | exact Hne].
Qed.

Lemma length_zero_normalize (a : Vector3) :
  length a = 0 -> length (normalize a) = 0.
Proof.
  intros H. unfold normalize. rewrite length_multiplyScalar, H. ring.
Qed.

Lemma cauchy_schwarz (a b : Vector3) :
  dot a b * dot a b <= lengthSq a * lengthSq b.
Proof.
  unfold dot, lengthSq.
  destruct a as [a1 a2 a3], b as [b1 b2 b3]; simpl.
  assert (E : (a1 * a1 + a2 * a2 + a3 * a3) * (b1 * b1 + b2 * b2 + b3 * b3)
              - (a1 * b1 + a2 * b2 + a3 * b3) * (a1 * b1 + a2 * b2 + a3 * b3)
            = (a1 * b2 - a2 * b1) * (a1 * b2 - a2 * b1)
              + (a1 * b3 - a3 * b1) * (a1 * b3 - a3 * b1)
              + (a2 * b3 - a3 * b2) * (a2 * b3 - a3 * b2)) by ring.
  pose proof (Rle_0_sqr (a1 * b2 - a2 * b1)).
  pose proof (Rle_0_sqr (a1 * b3 - a3 * b1)).
  pose proof (Rle_0_sqr (a2 * b3 - a3 * b2)).
  unfold Rsqr in *. lra.
Qed.

Lemma dot_le_lengths (a b : Vector3) : dot a b <= length a * length b.
Proof.
  pose proof (length_nonneg a); pose proof (length_nonneg b).
  destruct (Rle_dec (dot a b) 0) as [Hle|Hgt]; [nra|].
  apply Rsqr_incr_0_var; [|nra].
  unfold Rsqr.
  replace (length a * length b * (length a * length b))
    with ((length a * length a) * (length b * length b)) by ring.
  rewrite !length_sq. apply cauchy_schwarz.
Qed.

Lemma length_vadd_le (a b : Vector3) : length (vadd a b) <= length a + length b.
Proof.
  pose proof (length_nonneg a); pose proof (length_nonneg b).
  apply Rsqr_incr_0_var; [|lra].
  unfold Rsqr. rewrite length_sq.
  replace ((length a + length b) * (length a + length b))
    with (length a * length a + length b * length b + 2 * (length a * length b)) by ring.
  rewrite !length_sq.
  pose proof (dot_le_lengths a b).
  unfold lengthSq, vadd, dot in *; simpl in *. nra.
Qed.

Lemma length_x_axis (x : R) : length (mkV x 0 0) = Rabs x.
Proof.
  unfold length, lengthSq; simpl.
  replace (x * x + 0 * 0 + 0 * 0) with (Rsqr x) by (unfold Rsqr; ring).
  apply sqrt_Rsqr_abs.
Qed.

(** ** The boid tick *)

Lemma capSpeed_le (m : R) (b : Boid) :
  0 <= m -> length (velocity (capSpeed m b)) <= m.
Proof.
  intros Hm. unfold capSpeed.
  destruct (Rlt_dec m (length (velocity b))) as [Hlt|Hge].
  - simpl. rewrite length_setLength by lra. rewrite Rabs_right; lra.
  - lra.
Qed.

(** The velocity after a tick is the capped velocity plus the new bias. *)
Lemma updateAndMove_velocity (rules : list Rule) (args : RuleArguments)
    (rnd : Vector3) (b : Boid) :
  let b1 := capSpeed (maxSpeed (simParams args)) (applyRules rules args b) in
  velocity (updateAndMove rules args rnd b)
  = vadd (velocity b1) (randomBias (updateAndMove rules args rnd b)).
Proof. reflexivity. Qed.

(** C1: the tick runs the rules (each force added to the velocity as it
    is), then the speed cap, then the random bias, then moves the boid by
    its velocity, and its orientation is a function of the final velocity
    alone: [updateAndMove] equals the pipeline of section 4.4. *)
Theorem updateAndMove_is_spec_pipeline (rules : list Rule) (args : RuleArguments)
    (rnd : Vector3) (b : Boid) :
  updateAndMove rules args rnd b = SpecTick.tick rules args rnd b.
Proof. reflexivity. Qed.

(** C2 (refuted): with [maxSpeed = 1/2], a boid moving at speed 1 and a
    random bias that grows to [(1/200, 0, 0)] ends the tick at speed
    [101/200 > 1/2]. *)
Lemma tick_exceeds_maxSpeed :
  let params := mkParams 1 25 (1/2) ""%string (mkBounds 0 0 0 0 0 0) ""%string
                         (1/50) (1/10) in
  let b := mkBoid 0 vzero (mkRot 0 0) (mkV 1 0 0) vzero in
  maxSpeed params
  < length (velocity (updateAndMove [] (mkArgs [] params) (mkV (3/4) (1/2) (1/2)) b)).
Proof.
  cbv zeta. unfold updateAndMove, applyRules, capSpeed; simpl fold_left.
  simpl velocity at 1. rewrite length_x_axis, Rabs_right by lra. simpl maxSpeed.
  destruct (Rlt_dec (1/2) 1) as [_|H]; [|lra].
  unfold addRandomnessToVelocity, updateRandomBias, set_velocity, setLength,
    normalize, or1; simpl.
  rewrite length_x_axis, Rabs_right by lra.
  destruct (Req_EM_T 1 0) as [H|_]; [lra|].
  match goal with |- context [Rlt_dec ?l (length ?v)] =>
    replace v with (mkV (1/200) 0 0)
      by (unfold vadd, vzero; simpl; f_equal; field) end.
  rewrite length_x_axis, Rabs_right by lra.
  destruct (Rlt_dec (1/10) (1/200)) as [H|_]; [lra|].
  match goal with |- _ < length ?v =>
    replace v with (mkV (101/200) 0 0)
      by (unfold vadd, vzero, multiplyScalar; simpl; f_equal; field) end.
  rewrite length_x_axis, Rabs_right by lra. lra.
Qed.

(** C2 (amended): for a non-negative [maxSpeed], the velocity after a
    tick is a velocity of speed at most [maxSpeed] (the capped one) plus
    the boid's updated random bias; the cap comes before the randomness. *)
Theorem tick_velocity_capped_plus_bias (rules : list Rule) (args : RuleArguments)
    (rnd : Vector3) (b : Boid) :
  0 <= maxSpeed (simParams args) ->
  exists vcap, length vcap <= maxSpeed (simParams args)
    /\ velocity (updateAndMove rules args rnd b)
       = vadd vcap (randomBias (updateAndMove rules args rnd b)).
Proof.
  intros Hm. eexists; split; [|apply updateAndMove_velocity].
  apply capSpeed_le, Hm.
Qed.

(** C3: for a non-negative [maxSpeed], after a tick
    [|velocity| <= maxSpeed + |randomBias|], the bias taken after its
    rescale. *)
Theorem tick_speed_bound (rules : list Rule) (args : RuleArguments)
    (rnd : Vector3) (b : Boid) :
  0 <= maxSpeed (simParams args) ->
  length (velocity (updateAndMove rules args rnd b))
  <= maxSpeed (simParams args) + length (randomBias (updateAndMove rules args rnd b)).
Proof.
  intros Hm. rewrite updateAndMove_velocity.
  eapply Rle_trans; [apply length_vadd_le|].
  pose proof (capSpeed_le (maxSpeed (simParams args)) (applyRules rules args b) Hm).
  lra.
Qed.

(** ** Separation and Cohesion *)

Lemma separation_fold_weight (toOther : Boid -> Boid -> Vector3) (fn : R -> R)
    (thisBoid : Boid) (ns : list Boid) (v0 : Vector3) (w0 : R) :
  snd (fold_left (fun '(sep, ws) neighbour =>
                    let t := toOther thisBoid neighbour in
                    let w := fn (length t) in
                    (addScaledVector sep t w, ws + w)) ns (v0, w0))
  = fold_left (fun ws n => ws + fn (length (toOther thisBoid n))) ns w0.
Proof.
  revert v0 w0; induction ns as [|n ns IH]; intros v0 w0; [reflexivity|].
  simpl. apply IH.
Qed.

Lemma cohesion_fold_weight (toOther : Boid -> Boid -> Vector3) (fn : R -> R)
    (thisBoid : Boid) (ns : list Boid) (v0 : Vector3) (w0 : R) :
  snd (fold_left (fun '(c, ws) neighbour =>
                    let w := fn (length (toOther thisBoid neighbour)) in
                    (addScaledVector c (position neighbour) w, ws + w)) ns (v0, w0))
  = fold_left (fun ws n => ws + fn (length (toOther thisBoid n))) ns w0.
Proof.
  revert v0 w0; induction ns as [|n ns IH]; intros v0 w0; [reflexivity|].
  simpl. apply IH.
Qed.

(** Separation has both guards: no neighbours, or a zero weight sum,
    give the zero vector. *)
Lemma separation_zero_guards (toOther : Boid -> Boid -> Vector3) (fn : R -> R)
    (weight : R) (thisBoid : Boid) (args : RuleArguments) :
  neighbours args = [] \/ dropoffWeightSum toOther fn thisBoid (neighbours args) = 0 ->
  separation_calculateVector toOther fn weight thisBoid args = Some vzero.
Proof.
  unfold separation_calculateVector, dropoffWeightSum.
  destruct (neighbours args) as [|n ns]; [reflexivity|].
  intros [H|H]; [discriminate|].
  rewrite <- separation_fold_weight with (v0 := vzero) in H.
  destruct (fold_left _ _ _) as [sep ws]. simpl in H.
  destruct (Req_EM_T ws 0); [reflexivity|contradiction].
Qed.

(** Cohesion with neighbours whose weights sum to zero divides by zero. *)
Lemma cohesion_zero_weight_nonfinite (toOther : Boid -> Boid -> Vector3) (fn : R -> R)
    (weight : R) (thisBoid : Boid) (args : RuleArguments) :
  neighbours args <> [] ->
  dropoffWeightSum toOther fn thisBoid (neighbours args) = 0 ->
  cohesion_calculateVector toOther fn weight thisBoid args = None.
Proof.
  unfold cohesion_calculateVector, dropoffWeightSum.
  destruct (neighbours args) as [|n ns]; [contradiction|].
  intros _ H.
  rewrite <- cohesion_fold_weight with (v0 := vzero) in H.
  destruct (fold_left _ _ _) as [c ws]. simpl in H. subst ws.
  unfold divideScalar. destruct (Req_EM_T 0 0); [reflexivity|contradiction].
Qed.

(** C4 (code bug): Cohesion at a boid at the origin whose only neighbour
    sits at distance 60 and gets dropoff weight 0: the weight sum is zero
    and the result is non-finite, where Separation returns zero. *)
Theorem cohesion_zero_weight_sum_example :
  let params := mkParams 2 100 (1/2) ""%string (mkBounds 0 0 0 0 0 0) ""%string
                         (1/100) (1/10) in
  let thisBoid := mkBoid 0 vzero (mkRot 0 0) vzero vzero in
  let other := mkBoid 1 (mkV 60 0 0) (mkRot 0 0) vzero vzero in
  cohesion_calculateVector towardsOther linearDropoff50 1 thisBoid (mkArgs [other] params) = None
  /\ separation_calculateVector towardsOther linearDropoff50 1 thisBoid (mkArgs [other] params)
     = Some vzero.
Proof.
  cbv zeta.
  assert (Hw : dropoffWeightSum towardsOther linearDropoff50
                 (mkBoid 0 vzero (mkRot 0 0) vzero vzero)
                 [mkBoid 1 (mkV 60 0 0) (mkRot 0 0) vzero vzero] = 0).
  { unfold dropoffWeightSum, towardsOther; simpl.
    replace (vsub (mkV 60 0 0) vzero) with (mkV 60 0 0)
      by (unfold vsub, vzero; simpl; f_equal; ring).
    rewrite length_x_axis, Rabs_right by lra.
    unfold linearDropoff50. destruct (Rle_dec 50 60); [ring|lra]. }
  split.
  - apply cohesion_zero_weight_nonfinite; [discriminate | exact Hw].
  - apply separation_zero_guards. right. exact Hw.
Qed.

(** ** Obstacle avoidance *)

Lemma vadd_vzero_l (a : Vector3) : vadd vzero a = a.
Proof. destruct a; unfold vadd, vzero; simpl; f_equal; ring. Qed.

Lemma avoidCylinder_length (sharpness : R) (thisBoid : Boid)
    (cylinder : CylinderDescription) :
  0 < sharpness ->
  length (axisOffset thisBoid cylinder) <> 0 ->
  length (avoidCylinder sharpness thisBoid cylinder)
  = Rpower sharpness (- (surfaceDistance thisBoid cylinder - 10)).
Proof.
  intros Hs Hne. unfold avoidCylinder, surfaceDistance.
  fold (axisOffset thisBoid cylinder).
  rewrite length_setLength by exact Hne.
  apply Rabs_right. left. apply exp_pos.
Qed.

Lemma obstacleAvoidance_single_length (sharpness weight : R) (world : World)
    (cylinder : CylinderDescription) (thisBoid : Boid) :
  cylinders world = [cylinder] ->
  length (obstacleAvoidance_calculateVector sharpness weight world thisBoid)
  = Rabs weight * length (avoidCylinder sharpness thisBoid cylinder).
Proof.
  intros Hc. unfold obstacleAvoidance_calculateVector. rewrite Hc. simpl.
  rewrite length_multiplyScalar, vadd_vzero_l. ring.
Qed.

Lemma Rpower_antitone (s x y : R) :
  1 <= s -> x <= y -> Rpower s (- y) <= Rpower s (- x).
Proof.
  intros Hs Hxy. unfold Rpower.
  assert (Hln : 0 <= ln s).
  { destruct (Req_dec s 1) as [->|Hne]; [rewrite ln_1; lra|].
    rewrite <- ln_1. left. apply ln_increasing; lra. }
  assert (Hle : - y * ln s <= - x * ln s) by nra.
  destruct (Rle_lt_or_eq_dec _ _ Hle) as [Hlt|Heq].
  - left. apply exp_increasing, Hlt.
  - rewrite Heq. lra.
Qed.

(** C6 (refuted): a boid on the axis of a radius-5 cylinder is at surface
    distance 0 yet feels no force (its offset vector has length 0 and
    [setLength] leaves it zero), while a boid at surface distance 1 does. *)
Lemma obstacle_force_zero_on_axis :
  let cyl := mkCyl vzero 5 in
  let world := mkWorld "obstacles"%string [cyl] in
  let onAxis := mkBoid 0 vzero (mkRot 0 0) vzero vzero in
  let outside := mkBoid 1 (mkV 6 0 0) (mkRot 0 0) vzero vzero in
  surfaceDistance onAxis cyl <= surfaceDistance outside cyl
  /\ length (obstacleAvoidance_calculateVector 3 10 world onAxis)
     < length (obstacleAvoidance_calculateVector 3 10 world outside).
Proof.
  cbv zeta.
  assert (H0 : axisOffset (mkBoid 0 vzero (mkRot 0 0) vzero vzero) (mkCyl vzero 5) = mkV 0 0 0)
    by (unfold axisOffset, vsub, vzero; simpl; f_equal; ring).
  assert (H6 : axisOffset (mkBoid 1 (mkV 6 0 0) (mkRot 0 0) vzero vzero) (mkCyl vzero 5)
               = mkV 6 0 0)
    by (unfold axisOffset, vsub, vzero; simpl; f_equal; ring).
  assert (L0 : length (mkV 0 0 0) = 0) by (rewrite length_x_axis; apply Rabs_R0).
  assert (L6 : length (mkV 6 0 0) = 6) by (rewrite length_x_axis; apply Rabs_right; lra).
  split.
  - unfold surfaceDistance. fold (axisOffset (mkBoid 0 vzero (mkRot 0 0) vzero vzero) (mkCyl vzero 5)).
    fold (axisOffset (mkBoid 1 (mkV 6 0 0) (mkRot 0 0) vzero vzero) (mkCyl vzero 5)).
    rewrite H0, H6, L0, L6. simpl radius.
    destruct (Rlt_dec (0 - 5) 0); destruct (Rlt_dec (6 - 5) 0); lra.
  - rewrite !(obstacleAvoidance_single_length 3 10 _ (mkCyl vzero 5)) by reflexivity.
    rewrite (avoidCylinder_length 3 (mkBoid 1 (mkV 6 0 0) (mkRot 0 0) vzero vzero))
      by (try lra; rewrite H6, L6; lra).
    unfold avoidCylinder.
    fold (axisOffset (mkBoid 0 vzero (mkRot 0 0) vzero vzero) (mkCyl vzero 5)).
    rewrite H0. unfold setLength. rewrite length_multiplyScalar.
    rewrite length_zero_normalize by exact L0.
    pose proof (exp_pos (- (surfaceDistance (mkBoid 1 (mkV 6 0 0) (mkRot 0 0) vzero vzero)
                                             (mkCyl vzero 5) - 10) * ln 3)).
    unfold Rpower at 2. rewrite (Rabs_right 10) by lra. nra.
Qed.

(** C6 (amended): for one cylinder and a sharpness of at least 1, among
    boids off the cylinder's axis the force magnitude is non-increasing in
    the (clamped) surface distance. *)
Theorem obstacle_force_antitone (sharpness weight : R) (world : World)
    (cylinder : CylinderDescription) (b1 b2 : Boid) :
  cylinders world = [cylinder] ->
  1 <= sharpness ->
  length (axisOffset b1 cylinder) <> 0 ->
  length (axisOffset b2 cylinder) <> 0 ->
  surfaceDistance b1 cylinder <= surfaceDistance b2 cylinder ->
  length (obstacleAvoidance_calculateVector sharpness weight world b2)
  <= length (obstacleAvoidance_calculateVector sharpness weight world b1).
Proof.
  intros Hc Hs H1 H2 Hd.
  rewrite !(obstacleAvoidance_single_length _ _ _ cylinder) by exact Hc.
  rewrite !avoidCylinder_length by (assumption || lra).
  apply Rmult_le_compat_l; [apply Rabs_pos|].
  apply Rpower_antitone; lra.
Qed.

(** ** Witnesses of the tick theorems *)

Lemma tick_velocity_capped_plus_bias_witness :
  0 <= maxSpeed Examples.params0
  /\ exists vcap, length vcap <= maxSpeed Examples.params0
     /\ velocity (updateAndMove [] (mkArgs [] Examples.params0) (mkV (3/4) (1/2) (1/2))
                   Examples.boidA)
        = vadd vcap (randomBias (updateAndMove [] (mkArgs [] Examples.params0)
                                   (mkV (3/4) (1/2) (1/2)) Examples.boidA)).
Proof.
  split; [simpl; lra|].
  apply (tick_velocity_capped_plus_bias [] (mkArgs [] Examples.params0)
           (mkV (3/4) (1/2) (1/2)) Examples.boidA). simpl; lra.
Defined.

Lemma tick_speed_bound_witness :
  0 <= maxSpeed Examples.params0
  /\ length (velocity (updateAndMove [] (mkArgs [] Examples.params0) (mkV (3/4) (1/2) (1/2))
                         Examples.boidA))
     <= maxSpeed Examples.params0
        + length (randomBias (updateAndMove [] (mkArgs [] Examples.params0)
                                (mkV (3/4) (1/2) (1/2)) Examples.boidA)).
Proof.
  split; [simpl; lra|].
  apply (tick_speed_bound [] (mkArgs [] Examples.params0)
           (mkV (3/4) (1/2) (1/2)) Examples.boidA). simpl; lra.
Defined.

Lemma axisOffset_x_axis (x : R) :
  axisOffset (mkBoid 0 (mkV x 0 0) (mkRot 0 0) vzero vzero) Examples.cyl5 = mkV x 0 0.
Proof. unfold axisOffset, vsub; simpl. f_equal; ring. Qed.

Lemma surfaceDistance_x_axis (x : R) :
  5 <= x -> surfaceDistance (mkBoid 0 (mkV x 0 0) (mkRot 0 0) vzero vzero) Examples.cyl5 = x - 5.
Proof.
  intros Hx. unfold surfaceDistance. fold (axisOffset (mkBoid 0 (mkV x 0 0) (mkRot 0 0) vzero vzero) Examples.cyl5).
  rewrite axisOffset_x_axis, length_x_axis, Rabs_right by lra. simpl radius.
  destruct (Rlt_dec (x - 5) 0); lra.
Qed.

Lemma obstacle_force_antitone_witness :
  let near := mkBoid 0 (mkV 6 0 0) (mkRot 0 0) vzero vzero in
  let far := mkBoid 0 (mkV 8 0 0) (mkRot 0 0) vzero vzero in
  cylinders Examples.worldObstacles = [Examples.cyl5]
  /\ 1 <= 3
  /\ length (axisOffset near Examples.cyl5) <> 0
  /\ length (axisOffset far Examples.cyl5) <> 0
  /\ surfaceDistance near Examples.cyl5 <= surfaceDistance far Examples.cyl5
  /\ length (obstacleAvoidance_calculateVector 3 10 Examples.worldObstacles far)
     <= length (obstacleAvoidance_calculateVector 3 10 Examples.worldObstacles near).
Proof.
  cbv zeta.
  assert (H1 : cylinders Examples.worldObstacles = [Examples.cyl5]) by reflexivity.
  assert (H2 : 1 <= 3) by lra.
  assert (H3 : length (axisOffset (mkBoid 0 (mkV 6 0 0) (mkRot 0 0) vzero vzero) Examples.cyl5) <> 0)
    by (rewrite axisOffset_x_axis, length_x_axis, Rabs_right; lra).
  assert (H4 : length (axisOffset (mkBoid 0 (mkV 8 0 0) (mkRot 0 0) vzero vzero) Examples.cyl5) <> 0)
    by (rewrite axisOffset_x_axis, length_x_axis, Rabs_right; lra).
  assert (H5 : surfaceDistance (mkBoid 0 (mkV 6 0 0) (mkRot 0 0) vzero vzero) Examples.cyl5
               <= surfaceDistance (mkBoid 0 (mkV 8 0 0) (mkRot 0 0) vzero vzero) Examples.cyl5)
    by (rewrite !surfaceDistance_x_axis; lra).
  repeat split; try assumption.
  exact (obstacle_force_antitone 3 10 Examples.worldObstacles Examples.cyl5 _ _ H1 H2 H3 H4 H5).
Defined.

(** ** Worlds and the simulation loop *)

Module BoidSimulationFacts.
Import BoidSimulation.

Lemma distanceTo_sym (a b : Vector3) : distanceTo a b = distanceTo b a.
Proof.
unfold distanceTo, length, lengthSq, vsub; simpl. f_equal. ring.
Qed.

Lemma in_getBoidNeighbours (st : State) (a b : Boid) :
In b (getBoidNeighbours st a)
<-> In b (boids st) /\ id b <> id a
    /\ distanceTo (position a) (position b) < visibilityThreshold (simParams st).
Proof.
unfold getBoidNeighbours, isOtherBoidVisible. rewrite filter_In.
destruct (Nat.eqb_spec (id b) (id a)) as [E|NE];
  destruct (Rlt_dec _ _) as [L|NL]; simpl; intuition congruence.
Qed.

(** C5: for two distinct live boids, each is in the other's neighbour
  list exactly when their distance is strictly below
  [visibilityThreshold]. *)
Theorem neighbour_iff_closer_than_threshold (st : State) (a b : Boid) :
In a (boids st) -> In b (boids st) -> id a <> id b ->
(In b (getBoidNeighbours st a)
 <-> distanceTo (position a) (position b) < visibilityThreshold (simParams st))
/\ (In a (getBoidNeighbours st b)
 <-> distanceTo (position a) (position b) < visibilityThreshold (simParams st)).
Proof.
intros Ha Hb Hne. rewrite !in_getBoidNeighbours, (distanceTo_sym (position b)).
split; split; intuition.
Qed.

(** C9: [getWorldByName] fails exactly when no world has the name, and
  otherwise returns the first world that has it. *)
Theorem getWorldByName_first_or_error (worlds : list World) (worldName : string) :
(getWorldByName worlds worldName = None
 <-> Forall (fun w => name w <> worldName) worlds)
/\ (forall w, getWorldByName worlds worldName = Some w ->
      exists pre post, worlds = pre ++ w :: post /\ name w = worldName
        /\ Forall (fun w' => name w' <> worldName) pre).
Proof.
induction worlds as [|w0 ws [IHn IHs]]; simpl.
- split; [split; auto|]. intros w H; discriminate.
- destruct (String.eqb_spec (name w0) worldName) as [E|NE].
  + split.
    * split; [discriminate|]. intros H. inversion H; contradiction.
    * intros w H. inversion H; subst. exists [], ws. auto.
  + split.
    * rewrite IHn. split; [intros; constructor; auto | intros H; inversion H; auto].
    * intros w H. destruct (IHs w H) as (pre & post & -> & Hn & Hpre).
      exists (w0 :: pre), post. auto.
Qed.

(** [addBoids] leaves the parameters and the obstacle rule's world
  alone and appends freshly generated boids. *)
Lemma addBoids_fields (randomPosAndVel : nat -> Bounds3D -> Vector3 * Vector3)
  (k : nat) (st : State) :
simParams (addBoids randomPosAndVel k st) = simParams st
/\ obstacleAvoidWorld (addBoids randomPosAndVel k st) = obstacleAvoidWorld st
/\ nextBoidId (addBoids randomPosAndVel k st) = (nextBoidId st + k)%nat
/\ boids (addBoids randomPosAndVel k st)
   = boids st ++ map (fun i => generateBoid randomPosAndVel i (worldDimens (simParams st)))
                     (seq (nextBoidId st) k).
Proof.
revert st; induction k as [|k IH]; intros st; simpl.
- rewrite Nat.add_0_r, app_nil_r. auto.
- destruct (IH (mkState (worlds st) (currentWorldName st) (currentRendering st)
                (boids st ++ [generateBoid randomPosAndVel (nextBoidId st)
                                (worldDimens (simParams st))])
                (S (nextBoidId st)) (simParams st) (obstacleAvoidWorld st)))
    as (Hp & Hw & Hn & Hb).
  simpl in *. rewrite Hp, Hw, Hn, Hb, <- app_assoc. repeat split; try reflexivity; lia.
Qed.

Lemma loopFuel_gt (x : R) : x < INR (loopFuel x).
Proof.
unfold loopFuel. destruct (archimed x) as [H _].
destruct (Z.lt_ge_cases (up x) 0) as [L|L].
- apply IZR_lt in L. pose proof (pos_INR (Z.to_nat (up x))). lra.
- rewrite INR_IZR_INZ, Z2Nat.id by lia. lra.
Qed.

Lemma ceil_exists (x : R) (f : nat) : x < INR f -> 0 < x -> exists k, INR k - 1 < x <= INR k.
Proof.
revert x; induction f as [|f IH]; intros x Hf Hx.
- simpl in Hf. lra.
- rewrite S_INR in Hf. destruct (Rle_dec x 1).
  + exists 1%nat. simpl. lra.
  + destruct (IH (x - 1)) as [k Hk]; [lra|lra|]. exists (S k). rewrite S_INR. lra.
Qed.

(** With enough fuel the first loop runs [k] rounds, [k] the least
  whole number with [difference - k <= 0]. *)
Lemma addBoidsWhile_spec (randomPosAndVel : nat -> Bounds3D -> Vector3 * Vector3)
  (f : nat) (d : R) (st : State) :
d < INR f ->
exists k, addBoidsWhile randomPosAndVel f d st = (d - INR k, addBoids randomPosAndVel k st)
  /\ (d <= 0 -> k = 0%nat) /\ (0 < d -> INR k - 1 < d <= INR k).
Proof.
revert d st; induction f as [|f IH]; intros d st Hd.
- exists 0%nat. simpl in Hd |- *. split; [f_equal; ring|]. split; [reflexivity|lra].
- cbn [addBoidsWhile]. rewrite S_INR in Hd.
  destruct (Rlt_dec 0 d) as [Hp|Hn].
  + destruct (IH (d - 1) (mkState (worlds st) (currentWorldName st) (currentRendering st)
                (boids st ++ [generateBoid randomPosAndVel (nextBoidId st)
                                (worldDimens (simParams st))])
                (S (nextBoidId st)) (simParams st) (obstacleAvoidWorld st)))
      as (k & Hk & H0 & H1); [lra|].
    exists (S k). rewrite Hk, S_INR. split; [f_equal; try ring; try reflexivity|].
    split; [lra|]. intros _.
    destruct (Rle_dec (d - 1) 0) as [L|L].
    * rewrite (H0 L). simpl. lra.
    * specialize (H1 ltac:(lra)). lra.
  + exists 0%nat. simpl. split; [f_equal; ring|]. split; [reflexivity|lra].
Qed.

(** With enough fuel the second loop pops [k] times, [k] the least
  whole number with [difference + k >= 0] (fewer only on an empty
  list, where popping does nothing). *)
Lemma removeBoidsWhile_spec (f : nat) (d : R) (bs : list Boid) :
- d < INR f ->
exists k, removeBoidsWhile f d bs = removeBoids k bs
  /\ (0 <= d -> k = 0%nat) /\ (d < 0 -> INR k - 1 < - d <= INR k).
Proof.
revert d bs; induction f as [|f IH]; intros d bs Hd.
- exists 0%nat. simpl in Hd |- *. split; [reflexivity|]. split; [reflexivity|lra].
- cbn [removeBoidsWhile]. rewrite S_INR in Hd.
  destruct (Rlt_dec d 0) as [Hn|Hp].
  + destruct (pop bs) as [[b bs']|] eqn:Hpop.
    * destruct (IH (d + 1) bs') as (k & Hk & H0 & H1); [lra|].
      exists (S k). rewrite Hk. cbn [removeBoids]. rewrite Hpop.
      split; [reflexivity|]. split; [lra|]. intros _. rewrite S_INR.
      destruct (Rle_dec 0 (d + 1)) as [L|L].
      -- rewrite (H0 L). simpl. lra.
      -- specialize (H1 ltac:(lra)). lra.
    * destruct (ceil_exists (- d) (S f)) as [k Hk]; [rewrite S_INR; lra|lra|].
      exists k. split.
      -- destruct k; [reflexivity|]. cbn [removeBoids]. rewrite Hpop. reflexivity.
      -- split; [lra|]. intros _. exact Hk.
  + exists 0%nat. split; [reflexivity|]. split; [reflexivity|lra].
Qed.

(** [updateBoidCount] either changes nothing or runs [k] rounds of the
  first loop and then [k2] of the second. *)
Lemma updateBoidCount_shape (randomPosAndVel : nat -> Bounds3D -> Vector3 * Vector3)
  (st : State) :
(boidCount (simParams st) = INR (List.length (boids st))
 /\ updateBoidCount randomPosAndVel st = st)
\/ (boidCount (simParams st) <> INR (List.length (boids st))
    /\ exists k k2,
      updateBoidCount randomPosAndVel st
      = set_boids (addBoids randomPosAndVel k st)
                  (removeBoids k2 (boids (addBoids randomPosAndVel k st)))
      /\ (boidCount (simParams st) - INR (List.length (boids st)) <= 0 -> k = 0%nat)
      /\ (0 < boidCount (simParams st) - INR (List.length (boids st)) ->
          INR k - 1 < boidCount (simParams st) - INR (List.length (boids st)) <= INR k)
      /\ (0 <= boidCount (simParams st) - INR (List.length (boids st)) - INR k -> k2 = 0%nat)
      /\ (boidCount (simParams st) - INR (List.length (boids st)) - INR k < 0 ->
          INR k2 - 1 < - (boidCount (simParams st) - INR (List.length (boids st)) - INR k)
          <= INR k2)).
Proof.
unfold updateBoidCount.
destruct (Req_EM_T (boidCount (simParams st)) (INR (List.length (boids st)))) as [E|NE];
  [left; auto|right].
split; [exact NE|].
set (d := boidCount (simParams st) - INR (List.length (boids st))).
destruct (addBoidsWhile_spec randomPosAndVel (loopFuel d) d st (loopFuel_gt d))
  as (k & Hk & H0 & H1).
rewrite Hk.
destruct (removeBoidsWhile_spec (loopFuel (- (d - INR k))) (d - INR k)
            (boids (addBoids randomPosAndVel k st)) (loopFuel_gt _)) as (k2 & Hk2 & G0 & G1).
exists k, k2. rewrite Hk2. auto.
Qed.

(** [updateBoidCount] and [addBoids] leave the parameters and the
  obstacle rule's world alone. *)
Lemma updateBoidCount_fields (randomPosAndVel : nat -> Bounds3D -> Vector3 * Vector3)
  (st : State) :
simParams (updateBoidCount randomPosAndVel st) = simParams st
/\ obstacleAvoidWorld (updateBoidCount randomPosAndVel st) = obstacleAvoidWorld st.
Proof.
destruct (updateBoidCount_shape randomPosAndVel st)
  as [(_ & ->)|(_ & k & k2 & -> & _)]; [auto|].
unfold set_boids; simpl.
destruct (addBoids_fields randomPosAndVel k st) as (Hp & Hw & _). split; [apply Hp | apply Hw].
Qed.

(** C7: when the selected world has changed, everything [update()] does
  before the first boid update leaves [worldDimens] and the world of
  the obstacle-avoidance rule (hence its obstacles) taken from one and
  the same world: the one [getWorldByName] finds for the new name. *)
Theorem world_switch_consistent_before_agents
  (get3DBoundaries : World -> Bounds3D)
  (randomPosAndVel : nat -> Bounds3D -> Vector3 * Vector3) (st st' : State) :
currentWorldName st <> worldName (simParams st) ->
beforeAgentUpdates get3DBoundaries randomPosAndVel st = Some st' ->
exists w, getWorldByName (worlds st) (worldName (simParams st)) = Some w
  /\ worldDimens (simParams st') = get3DBoundaries w
  /\ obstacleAvoidWorld st' = w
  /\ cylinders (obstacleAvoidWorld st') = cylinders w.
Proof.
intros Hne H. unfold beforeAgentUpdates, reloadIfNeeded in H.
destruct (String.eqb_spec (currentWorldName st) (worldName (simParams st)))
  as [E|_]; [contradiction|]. simpl in H.
unfold reloadWorld in H.
destruct (getWorldByName (worlds st) (worldName (simParams st))) as [w|] eqn:Hw;
  [|discriminate].
injection H as <-.
pose proof (updateBoidCount_fields randomPosAndVel) as F.
exists w. rewrite (proj1 (F _)), (proj2 (F _)). simpl. auto.
Qed.

Lemma removeBoids_firstn (k : nat) (bs : list Boid) :
(k <= List.length bs)%nat -> removeBoids k bs = firstn (List.length bs - k) bs.
Proof.
revert bs; induction k as [|k IH]; intros bs Hk; simpl.
- rewrite Nat.sub_0_r, firstn_all. reflexivity.
- unfold pop. destruct (rev bs) as [|x r] eqn:E.
  + apply (f_equal (@rev Boid)) in E. rewrite rev_involutive in E. subst bs.
    simpl in Hk. lia.
  + assert (Hbs : bs = rev r ++ [x])
      by (rewrite <- (rev_involutive bs), E; reflexivity).
    subst bs. rewrite length_app, length_rev in Hk |- *. simpl in Hk |- *.
    rewrite IH by (rewrite length_rev; lia). rewrite length_rev.
    rewrite firstn_app, length_rev.
    replace (List.length r + 1 - S k - List.length r)%nat with 0%nat by lia.
    simpl. rewrite app_nil_r. f_equal. lia.
Qed.

Lemma removeBoids_firstn_all (k : nat) (bs : list Boid) :
removeBoids k bs = firstn (List.length bs - k) bs.
Proof.
revert bs; induction k as [|k IH]; intros bs; simpl.
- rewrite Nat.sub_0_r, firstn_all. reflexivity.
- unfold pop. destruct (rev bs) as [|x r] eqn:E.
  + apply (f_equal (@rev Boid)) in E. rewrite rev_involutive in E. subst bs. reflexivity.
  + assert (Hbs : bs = rev r ++ [x])
      by (rewrite <- (rev_involutive bs), E; reflexivity).
    subst bs. rewrite IH, length_app, length_rev, firstn_app, length_rev. simpl.
    replace (List.length r + 1 - S k - List.length r)%nat with 0%nat by lia.
    simpl. rewrite app_nil_r. f_equal. lia.
Qed.

Lemma length_removeBoids (k : nat) (bs : list Boid) :
List.length (removeBoids k bs) = (List.length bs - k)%nat.
Proof. rewrite removeBoids_firstn_all, length_firstn. lia. Qed.

Lemma ceil_INR_unique (k j : nat) : INR k - 1 < INR j <= INR k -> k = j.
Proof.
intros [H1 H2]. apply INR_le in H2.
assert (H3 : INR k < INR (S j)) by (rewrite S_INR; lra). apply INR_lt in H3. lia.
Qed.

Lemma ceil_unit (k : nat) (x : R) : INR k - 1 < x <= INR k -> 0 < x < 1 -> k = 1%nat.
Proof.
intros [H1 H2] [H3 H4].
assert (L1 : INR 0 < INR k) by (simpl; lra).
assert (L2 : INR k < INR 2) by (simpl; lra).
apply INR_lt in L1, L2. lia.
Qed.

(** After [updateBoidCount] a non-negative target [boidCount] is
  reached up to its fractional part: the flock has [floor boidCount]
  boids; a negative target empties the flock. *)
Lemma updateBoidCount_length_bounds
  (randomPosAndVel : nat -> Bounds3D -> Vector3 * Vector3) (st : State) :
(0 <= boidCount (simParams st) ->
 INR (List.length (boids (updateBoidCount randomPosAndVel st))) <= boidCount (simParams st)
 < INR (List.length (boids (updateBoidCount randomPosAndVel st))) + 1)
/\ (boidCount (simParams st) < 0 ->
    List.length (boids (updateBoidCount randomPosAndVel st)) = 0%nat).
Proof.
pose proof (pos_INR (List.length (boids st))) as Pn.
destruct (updateBoidCount_shape randomPosAndVel st)
  as [(E & ->)|(NE & k & k2 & -> & H0 & H1 & G0 & G1)].
- split; intros; lra.
- cbn [boids set_boids]. rewrite length_removeBoids.
  destruct (addBoids_fields randomPosAndVel k st) as (_ & _ & _ & Hb).
  rewrite Hb, length_app, length_map, length_seq.
  set (n := List.length (boids st)) in *.
  set (c := boidCount (simParams st)) in *.
  destruct (Rle_dec (c - INR n) 0) as [Dle|Dgt].
  + rewrite (H0 Dle) in G1 |- *. simpl INR in G1. rewrite Nat.add_0_r.
    specialize (G1 ltac:(lra)).
    split; intros Hc.
    * assert (Hk : (k2 <= n)%nat).
      { assert (L : INR k2 < INR (S n)) by (rewrite S_INR; lra).
        apply INR_lt in L. lia. }
      rewrite minus_INR by exact Hk. lra.
    * assert (L : INR n < INR k2) by lra. apply INR_lt in L. lia.
  + specialize (H1 ltac:(lra)).
    assert (Hc : 0 < c) by lra.
    destruct (Rle_dec 0 (c - INR n - INR k)) as [Z|Z].
    * rewrite (G0 Z), Nat.sub_0_r, plus_INR.
      split; intros; lra.
    * specialize (G1 ltac:(lra)).
      rewrite (ceil_unit k2 (- (c - INR n - INR k)) G1 ltac:(lra)).
      assert (Lk : INR 0 < INR k) by (simpl; lra). apply INR_lt in Lk.
      rewrite minus_INR by lia. rewrite plus_INR. simpl INR.
      split; intros; lra.
Qed.

(** C8: lowering the (whole-number) target [m] below the current count
  keeps exactly the first [m] boids, unchanged, and removing from an
  empty list does nothing. *)
Theorem updateBoidCount_keeps_prefix
  (randomPosAndVel : nat -> Bounds3D -> Vector3 * Vector3) (st : State) (m : nat) :
boidCount (simParams st) = INR m ->
(m < List.length (boids st))%nat ->
boids (updateBoidCount randomPosAndVel st) = firstn m (boids st)
/\ (List.length (boids st) - List.length (boids (updateBoidCount randomPosAndVel st))
    = List.length (boids st) - m)%nat
/\ (forall fuel difference, removeBoidsWhile fuel difference [] = []).
Proof.
intros Hm Hlt.
assert (Hb : boids (updateBoidCount randomPosAndVel st) = firstn m (boids st)).
{ destruct (updateBoidCount_shape randomPosAndVel st)
    as [(E & _)|(NE & k & k2 & -> & H0 & H1 & G0 & G1)].
  - rewrite Hm in E. apply INR_eq in E. lia.
  - assert (Ld : INR m < INR (List.length (boids st))) by (apply lt_INR; exact Hlt).
    rewrite Hm in H0, G1. rewrite (H0 ltac:(lra)) in G1 |- *.
    simpl INR in G1. cbn [addBoids boids set_boids].
    specialize (G1 ltac:(lra)).
    replace (- (INR m - INR (List.length (boids st)) - 0))
      with (INR (List.length (boids st) - m)) in G1
      by (rewrite minus_INR by lia; ring).
    rewrite (ceil_INR_unique _ _ G1).
    rewrite removeBoids_firstn by lia. f_equal. lia. }
split; [exact Hb|]. split.
- rewrite Hb, length_firstn. f_equal. lia.
- intros fuel difference. destruct fuel; simpl; [reflexivity|].
  destruct (Rlt_dec difference 0); reflexivity.
Qed.

Lemma id_generateBoid (randomPosAndVel : nat -> Bounds3D -> Vector3 * Vector3)
  (i : nat) (bounds : Bounds3D) :
id (generateBoid randomPosAndVel i bounds) = i.
Proof. unfold generateBoid. destruct (randomPosAndVel i bounds); reflexivity. Qed.

Lemma firstn_seq_min (j s ka : nat) : firstn j (seq s ka) = seq s (Nat.min j ka).
Proof.
revert j s; induction ka as [|ka IH]; intros j s.
- rewrite Nat.min_0_r. apply firstn_nil.
- destruct j; [reflexivity|]. simpl. rewrite IH. reflexivity.
Qed.

(** [updateBoidCount] keeps a prefix of the old boids followed by
  freshly generated ones, and moves [nextBoidId] past the ids it
  handed out. *)
Lemma updateBoidCount_prefix (randomPosAndVel : nat -> Bounds3D -> Vector3 * Vector3)
  (st : State) :
exists j ka,
  boids (updateBoidCount randomPosAndVel st)
  = firstn j (boids st ++ map (fun i => generateBoid randomPosAndVel i (worldDimens (simParams st)))
                                (seq (nextBoidId st) ka))
  /\ nextBoidId (updateBoidCount randomPosAndVel st) = (nextBoidId st + ka)%nat.
Proof.
destruct (updateBoidCount_shape randomPosAndVel st)
  as [(_ & ->)|(_ & k & k2 & -> & _)].
- exists (List.length (boids st)), 0%nat. simpl. rewrite app_nil_r, firstn_all, Nat.add_0_r.
  auto.
- destruct (addBoids_fields randomPosAndVel k st) as (_ & _ & Hn & Hb).
  cbn [boids nextBoidId set_boids]. rewrite removeBoids_firstn_all, Hb, Hn. eauto.
Qed.

(** C10: after [reloadWorld] no boid is left, and the next count
  reconciliation builds the whole flock anew: [floor boidCount]
  freshly generated boids with the next ids (none for a negative
  target), none of them an old boid's id. *)
Theorem reloadWorld_rebuilds_flock
  (get3DBoundaries : World -> Bounds3D)
  (randomPosAndVel : nat -> Bounds3D -> Vector3 * Vector3) (st st' : State) :
reloadWorld get3DBoundaries st = Some st' ->
boids st' = []
/\ (exists k,
      boids (updateBoidCount randomPosAndVel st')
      = map (fun i => generateBoid randomPosAndVel i (worldDimens (simParams st')))
            (seq (nextBoidId st) k)
      /\ (0 <= boidCount (simParams st) ->
          INR k <= boidCount (simParams st) < INR k + 1)
      /\ (boidCount (simParams st) < 0 -> k = 0%nat))
/\ (forall b, In b (boids (updateBoidCount randomPosAndVel st')) ->
      (nextBoidId st <= id b)%nat).
Proof.
intros H. unfold reloadWorld in H.
destruct (getWorldByName _ _) as [w|]; [|discriminate].
injection H as <-.
set (st' := mkState _ _ _ _ _ _ _).
destruct (updateBoidCount_prefix randomPosAndVel st') as (j & ka & Hp & _).
unfold st' in Hp at 2 3. cbn [boids nextBoidId app] in Hp.
rewrite firstn_map, firstn_seq_min in Hp.
destruct (updateBoidCount_length_bounds randomPosAndVel st') as [B1 B2].
rewrite Hp, length_map, length_seq in B1, B2.
split; [reflexivity|]. split.
- exists (Nat.min j ka). split; [exact Hp|]. split; [exact B1 | exact B2].
- intros b Hin. rewrite Hp, in_map_iff in Hin.
  destruct Hin as (i & <- & Hi). rewrite id_generateBoid.
  apply in_seq in Hi. unfold st' in Hi. cbn [nextBoidId] in Hi. lia.
Qed.

(** ** Witnesses of the simulation-loop theorems *)

Lemma neighbour_iff_closer_than_threshold_witness :
In Examples.boidA (boids Examples.switched) /\ In Examples.boidB (boids Examples.switched)
/\ id Examples.boidA <> id Examples.boidB
/\ (In Examples.boidB (getBoidNeighbours Examples.switched Examples.boidA)
    <-> distanceTo (position Examples.boidA) (position Examples.boidB)
        < visibilityThreshold (simParams Examples.switched))
/\ (In Examples.boidA (getBoidNeighbours Examples.switched Examples.boidB)
    <-> distanceTo (position Examples.boidA) (position Examples.boidB)
        < visibilityThreshold (simParams Examples.switched)).
Proof.
assert (Ha : In Examples.boidA (boids Examples.switched)) by (simpl; auto).
assert (Hb : In Examples.boidB (boids Examples.switched)) by (simpl; auto).
assert (Hne : id Examples.boidA <> id Examples.boidB) by (simpl; discriminate).
split; [exact Ha|]. split; [exact Hb|]. split; [exact Hne|].
exact (neighbour_iff_closer_than_threshold _ _ _ Ha Hb Hne).
Defined.

Lemma world_switch_consistent_before_agents_witness :
currentWorldName Examples.switched <> worldName (simParams Examples.switched)
/\ beforeAgentUpdates Examples.boundsOf Examples.draw Examples.switched
   = Some Examples.switchedBeforeAgents
/\ exists w, getWorldByName (worlds Examples.switched)
               (worldName (simParams Examples.switched)) = Some w
     /\ worldDimens (simParams Examples.switchedBeforeAgents) = Examples.boundsOf w
     /\ obstacleAvoidWorld Examples.switchedBeforeAgents = w
     /\ cylinders (obstacleAvoidWorld Examples.switchedBeforeAgents) = cylinders w.
Proof.
assert (H1 : currentWorldName Examples.switched <> worldName (simParams Examples.switched))
  by (simpl; discriminate).
assert (H2 : beforeAgentUpdates Examples.boundsOf Examples.draw Examples.switched
             = Some Examples.switchedBeforeAgents) by reflexivity.
split; [exact H1|]. split; [exact H2|].
exact (world_switch_consistent_before_agents _ _ _ _ H1 H2).
Defined.

Lemma updateBoidCount_keeps_prefix_witness :
boidCount (simParams Examples.shrinking) = INR 1
/\ (1 < List.length (boids Examples.shrinking))%nat
/\ boids (updateBoidCount Examples.draw Examples.shrinking) = firstn 1 (boids Examples.shrinking)
/\ (List.length (boids Examples.shrinking)
    - List.length (boids (updateBoidCount Examples.draw Examples.shrinking))
    = List.length (boids Examples.shrinking) - 1)%nat
/\ (forall fuel difference, removeBoidsWhile fuel difference [] = []).
Proof.
assert (H1 : boidCount (simParams Examples.shrinking) = INR 1) by reflexivity.
assert (H2 : (1 < List.length (boids Examples.shrinking))%nat) by (simpl; lia).
split; [exact H1|]. split; [exact H2|]. exact (updateBoidCount_keeps_prefix _ _ _ H1 H2).
Defined.

Lemma reloadWorld_rebuilds_flock_witness :
reloadWorld Examples.boundsOf Examples.switched = Some Examples.switchedReloaded
/\ boids Examples.switchedReloaded = []
/\ (exists k,
      boids (updateBoidCount Examples.draw Examples.switchedReloaded)
      = map (fun i => generateBoid Examples.draw i
                        (worldDimens (simParams Examples.switchedReloaded)))
            (seq (nextBoidId Examples.switched) k)
      /\ (0 <= boidCount (simParams Examples.switched) ->
          INR k <= boidCount (simParams Examples.switched) < INR k + 1)
      /\ (boidCount (simParams Examples.switched) < 0 -> k = 0%nat))
/\ (forall b, In b (boids (updateBoidCount Examples.draw Examples.switchedReloaded)) ->
      (nextBoidId Examples.switched <= id b)%nat).
Proof.
assert (H : reloadWorld Examples.boundsOf Examples.switched = Some Examples.switchedReloaded)
  by reflexivity.
split; [exact H|]. exact (reloadWorld_rebuilds_flock _ _ _ _ H).
Defined.

End BoidSimulationFacts.

(** ** Further properties of the boid tick and the rules *)

Lemma length_vzero : length vzero = 0.
Proof.
  unfold length, lengthSq, vzero; simpl.
  replace (0 * 0 + 0 * 0 + 0 * 0) with 0 by ring. apply sqrt_0.
Qed.

Lemma length_normalize_cases (a : Vector3) :
  length (normalize a) = 0 \/ length (normalize a) = 1.
Proof.
  unfold normalize, or1. rewrite length_multiplyScalar.
  destruct (Req_EM_T (length a) 0) as [E|NE].
  - left. rewrite E. ring.
  - right. pose proof (length_nonneg a).
    rewrite Rabs_right by (apply Rle_ge, Rlt_le, Rinv_0_lt_compat; lra).
    field. exact NE.
Qed.

Lemma length_setLength_le (a : Vector3) (l : R) : length (setLength a l) <= Rabs l.
Proof.
  unfold setLength. rewrite length_multiplyScalar.
  pose proof (Rabs_pos l).
  destruct (length_normalize_cases a) as [E|E]; rewrite E; lra.
Qed.

(** X1: [capSpeed] is idempotent for a non-negative maximum speed. *)
Theorem capSpeed_idempotent (m : R) (b : Boid) :
  0 <= m -> capSpeed m (capSpeed m b) = capSpeed m b.
Proof.
  intros Hm. pose proof (capSpeed_le m b Hm) as Hle.
  set (c := capSpeed m b) in *. unfold capSpeed at 1.
  destruct (Rlt_dec m (length (velocity c))); [lra|reflexivity].
Qed.

(** X2: For a positive maximum speed, [capSpeed] only shrinks the velocity:
    the new velocity is the old one scaled by a factor in (0, 1]. *)
Theorem capSpeed_keeps_direction (m : R) (b : Boid) :
  0 < m ->
  exists k, 0 < k <= 1 /\ velocity (capSpeed m b) = multiplyScalar (velocity b) k.
Proof.
  intros Hm. unfold capSpeed.
  destruct (Rlt_dec m (length (velocity b))) as [Hlt|Hge].
  - exists (/ length (velocity b) * m). simpl.
    split.
    + split.
      * apply Rmult_lt_0_compat; [apply Rinv_0_lt_compat|]; lra.
      * apply (Rmult_le_reg_l (length (velocity b))); [lra|].
        field_simplify; lra.
    + unfold setLength, normalize, or1.
      destruct (Req_EM_T (length (velocity b)) 0) as [E|_]; [lra|].
      unfold multiplyScalar; simpl. f_equal; ring.
  - exists 1. split; [lra|]. destruct (velocity b) as [x y z].
    unfold multiplyScalar; simpl. f_equal; ring.
Qed.

Lemma random_delta_length (rnd : Vector3) (p : R) :
  0 <= p -> 0 <= vx rnd <= 1 -> 0 <= vy rnd <= 1 -> 0 <= vz rnd <= 1 ->
  length (mkV (vx rnd * p - p / 2) (vy rnd * p - p / 2) (vz rnd * p - p / 2)) <= p.
Proof.
  intros Hp Hx Hy Hz. unfold length, lengthSq; simpl.
  apply Rle_trans with (sqrt (p * p)); [|rewrite sqrt_square by exact Hp; lra].
  apply sqrt_le_1_alt.
  assert (forall r, 0 <= r <= 1 -> (r * p - p / 2) * (r * p - p / 2) <= p * p / 4) as Hc.
  { intros r Hr. replace ((r * p - p / 2) * (r * p - p / 2)) with ((r - 1/2) * (r - 1/2) * (p * p))
      by field.
    pose proof (Rle_0_sqr p) as Hp2; unfold Rsqr in Hp2.
    assert ((r - 1/2) * (r - 1/2) <= 1/4) by nra. nra. }
  pose proof (Hc _ Hx). pose proof (Hc _ Hy). pose proof (Hc _ Hz).
  pose proof (Rle_0_sqr p) as Hp2; unfold Rsqr in Hp2. lra.
Qed.

(** X3: [updateRandomBias] keeps the bias within [randomnessLimit] when the
    per-step change is at most 99 times the limit: a bias that leaves the
    limit is divided by 100. *)
Theorem updateRandomBias_within_limit (rnd : Vector3) (p limit : R) (b : Boid) :
  0 <= p -> p <= 99 * limit ->
  0 <= vx rnd <= 1 -> 0 <= vy rnd <= 1 -> 0 <= vz rnd <= 1 ->
  length (randomBias b) <= limit ->
  length (randomBias (updateRandomBias rnd p limit b)) <= limit.
Proof.
  intros Hp Hpl Hx Hy Hz Hb. unfold updateRandomBias; simpl.
  pose proof (random_delta_length rnd p Hp Hx Hy Hz) as Hd.
  match goal with |- context [Rlt_dec limit (length ?v)] =>
    pose proof (length_vadd_le (randomBias b)
                  (mkV (vx rnd * p - p / 2) (vy rnd * p - p / 2) (vz rnd * p - p / 2))) as Ht;
    destruct (Rlt_dec limit (length v)) end.
  - rewrite length_multiplyScalar, Rabs_right by lra. lra.
  - lra.
Qed.

Lemma atan2_scale (k y x : R) : 0 < k -> atan2 (y * k) (x * k) = atan2 y x.
Proof.
  intros Hk. unfold atan2.
  destruct (Req_dec x 0) as [Hx|Hx].
  - subst x. rewrite Rmult_0_l.
    repeat destruct (Rlt_dec _ _); repeat destruct (Rle_dec _ _);
      try reflexivity; try nra.
  - replace (y * k / (x * k)) with (y / x) by (field; lra).
    repeat destruct (Rlt_dec _ _); repeat destruct (Rle_dec _ _);
      try reflexivity; try nra.
Qed.

(** X4: The orientation depends only on the direction of the velocity:
    scaling the vector by a positive factor does not change it. *)
Theorem pointInDirection_scale (v : Vector3) (k : R) :
  0 < k -> pointInDirection (multiplyScalar v k) = pointInDirection v.
Proof.
  intros Hk. destruct v as [x y z]. unfold pointInDirection, multiplyScalar.
  cbv zeta; cbn [vx vy vz].
  replace ((x * k) ^ 2 + (z * k) ^ 2) with ((x ^ 2 + z ^ 2) * k ^ 2) by ring.
  rewrite (sqrt_mult_alt (x ^ 2 + z ^ 2) (k ^ 2)) by nra. rewrite (sqrt_pow2 k) by lra.
  replace (- (z * k)) with (- z * k) by ring.
  rewrite !atan2_scale by exact Hk. reflexivity.
Qed.

(** X5: Separation never produces a non-finite vector, and its force is
    either zero or of magnitude exactly [|weight|]. *)
Theorem separation_finite_unit (toOther : Boid -> Boid -> Vector3) (fn : R -> R)
    (weight : R) (thisBoid : Boid) (args : RuleArguments) :
  exists v, separation_calculateVector toOther fn weight thisBoid args = Some v
    /\ (length v = 0 \/ length v = Rabs weight).
Proof.
  unfold separation_calculateVector.
  destruct (neighbours args) as [|n ns].
  - exists vzero. split; [reflexivity|]. left. apply length_vzero.
  - destruct (fold_left _ _ _) as [sep ws].
    destruct (Req_EM_T ws 0) as [E|NE].
    + exists vzero. split; [reflexivity|]. left. apply length_vzero.
    + unfold divideScalar. destruct (Req_EM_T ws 0); [contradiction|].
      eexists. split; [reflexivity|].
      rewrite length_multiplyScalar.
      destruct (length_normalize_cases (multiplyScalar sep (/ ws))) as [E|E];
        rewrite E; [left|right]; ring.
Qed.

(** X6: Cohesion is finite, of magnitude zero or [|weight|], whenever it has
    no neighbours or its weight sum is not zero. *)
Theorem cohesion_finite_unit (toOther : Boid -> Boid -> Vector3) (fn : R -> R)
    (weight : R) (thisBoid : Boid) (args : RuleArguments) :
  neighbours args = [] \/ dropoffWeightSum toOther fn thisBoid (neighbours args) <> 0 ->
  exists v, cohesion_calculateVector toOther fn weight thisBoid args = Some v
    /\ (length v = 0 \/ length v = Rabs weight).
Proof.
  unfold cohesion_calculateVector, dropoffWeightSum.
  destruct (neighbours args) as [|n ns].
  - intros _. exists vzero. split; [reflexivity|]. left. apply length_vzero.
  - intros [H|H]; [discriminate|].
    rewrite <- cohesion_fold_weight with (v0 := vzero) in H.
    destruct (fold_left _ _ _) as [c ws]. simpl in H.
    unfold divideScalar. destruct (Req_EM_T ws 0); [contradiction|].
    eexists. split; [reflexivity|].
    rewrite length_multiplyScalar.
    match goal with |- context [normalize ?a] =>
      destruct (length_normalize_cases a) as [E|E] end;
      rewrite E; [left|right]; ring.
Qed.

Lemma surfaceDistance_nonneg (thisBoid : Boid) (cylinder : CylinderDescription) :
  0 <= surfaceDistance thisBoid cylinder.
Proof.
  unfold surfaceDistance. destruct (Rlt_dec _ 0); lra.
Qed.

Lemma avoidCylinder_eq (sharpness : R) (thisBoid : Boid) (cylinder : CylinderDescription) :
  avoidCylinder sharpness thisBoid cylinder
  = setLength (axisOffset thisBoid cylinder)
      (Rpower sharpness (- (surfaceDistance thisBoid cylinder - 10))).
Proof. reflexivity. Qed.

Lemma avoidCylinder_le (sharpness : R) (thisBoid : Boid) (cylinder : CylinderDescription) :
  1 <= sharpness -> length (avoidCylinder sharpness thisBoid cylinder) <= Rpower sharpness 10.
Proof.
  intros Hs. rewrite avoidCylinder_eq.
  eapply Rle_trans; [apply length_setLength_le|].
  rewrite Rabs_right by (left; apply exp_pos).
  replace (Rpower sharpness 10) with (Rpower sharpness (- (0 - 10))) by (f_equal; ring).
  apply Rpower_antitone; [exact Hs|].
  pose proof (surfaceDistance_nonneg thisBoid cylinder). lra.
Qed.

Lemma avoidance_fold_le (sharpness : R) (thisBoid : Boid)
    (cs : list CylinderDescription) (acc : Vector3) :
  1 <= sharpness ->
  length (fold_left (fun acc cylinder => vadd acc (avoidCylinder sharpness thisBoid cylinder))
            cs acc)
  <= length acc + INR (List.length cs) * Rpower sharpness 10.
Proof.
  intros Hs. revert acc; induction cs as [|c cs IH]; intros acc; cbn [fold_left List.length].
  - change (INR 0) with 0. lra.
  - eapply Rle_trans; [apply IH|].
    pose proof (length_vadd_le acc (avoidCylinder sharpness thisBoid c)).
    pose proof (avoidCylinder_le sharpness thisBoid c Hs).
    rewrite S_INR. lra.
Qed.

(** X7: The obstacle-avoidance force is bounded: at most [|weight|] times
    the number of cylinders times [sharpness^10]. *)
Theorem obstacleAvoidance_bounded (sharpness weight : R) (world : World) (thisBoid : Boid) :
  1 <= sharpness ->
  length (obstacleAvoidance_calculateVector sharpness weight world thisBoid)
  <= Rabs weight * INR (List.length (cylinders world)) * Rpower sharpness 10.
Proof.
  intros Hs. unfold obstacleAvoidance_calculateVector.
  rewrite length_multiplyScalar.
  pose proof (avoidance_fold_le sharpness thisBoid (cylinders world) vzero Hs) as H.
  rewrite length_vzero, Rplus_0_l in H.
  rewrite Rmult_assoc. apply Rmult_le_compat_l; [apply Rabs_pos | exact H].
Qed.

(** ** Further properties of the generators *)

Lemma randomBetween_bounds (r minV maxV : R) :
  0 <= r < 1 -> minV <= maxV -> minV <= randomBetween r minV maxV <= maxV.
Proof. intros Hr Hm. unfold randomBetween. nra. Qed.

(** X8: A generated boid lies inside the position bounds and its velocity
    inside the velocity bounds (the defaults where none are given), for
    [Math.random()] draws in [0, 1) and bounds with [min <= max]. *)
Theorem generateWithRandomPosAndVel_in_bounds (boidId : nat)
    (positionBounds velocityBounds : option Bounds3D) (rp rv : Vector3) :
  let pb := positionBoundsOrDefault positionBounds in
  let vb := velocityBoundsOrDefault velocityBounds in
  0 <= vx rp < 1 -> 0 <= vy rp < 1 -> 0 <= vz rp < 1 ->
  0 <= vx rv < 1 -> 0 <= vy rv < 1 -> 0 <= vz rv < 1 ->
  xMin pb <= xMax pb -> yMin pb <= yMax pb -> zMin pb <= zMax pb ->
  xMin vb <= xMax vb -> yMin vb <= yMax vb -> zMin vb <= zMax vb ->
  let b := generateWithRandomPosAndVel boidId positionBounds velocityBounds rp rv in
  id b = boidId /\ randomBias b = vzero
  /\ xMin pb <= vx (position b) <= xMax pb
  /\ yMin pb <= vy (position b) <= yMax pb
  /\ zMin pb <= vz (position b) <= zMax pb
  /\ xMin vb <= vx (velocity b) <= xMax vb
  /\ yMin vb <= vy (velocity b) <= yMax vb
  /\ zMin vb <= vz (velocity b) <= zMax vb.
Proof.
  intros pb vb H1 H2 H3 H4 H5 H6 H7 H8 H9 H10 H11 H12 b.
  subst b; unfold generateWithRandomPosAndVel; cbn [id randomBias position velocity vx vy vz].
  fold pb vb.
  repeat split; try reflexivity; apply randomBetween_bounds; assumption.
Qed.

(** X9: The colour keeps the base hue and saturation; its lightness always
    lies in [0, 1], and for a draw in [0, 1) it lies in [0.1, 0.5) for
    simple rendering and in [0.3, 1] for photorealistic rendering. *)
Theorem generateIndividualColour_range (photorealisticRendering : bool) (r : R) :
  let '(h, s, l) := generateIndividualColour photorealisticRendering r in
  h = 0.602 /\ s = 0.32 /\ 0 <= l <= 1
  /\ (0 <= r < 1 ->
      if photorealisticRendering then 3/10 <= l <= 1 else 1/10 <= l < 1/2).
Proof.
  unfold generateIndividualColour.
  split; [reflexivity|]. split; [reflexivity|].
  unfold Rmax, Rmin.
  destruct photorealisticRendering;
    repeat destruct (Rle_dec _ _); split; try lra; intros; lra.
Qed.

(** ** Further properties of the simulation loop *)

Module BoidSimulationExtras.
Import BoidSimulation BoidSimulationFacts.

Lemma id_applyRules (rules : list Rule) (args : RuleArguments) (b : Boid) :
  id (applyRules rules args b) = id b.
Proof.
  unfold applyRules. revert b; induction rules as [|r rs IH]; intros b; simpl; [reflexivity|].
  rewrite IH. reflexivity.
Qed.

Lemma id_updateAndMove (rules : list Rule) (args : RuleArguments) (rnd : Vector3) (b : Boid) :
  id (updateAndMove rules args rnd b) = id b.
Proof.
  unfold updateAndMove, move, addRandomnessToVelocity, updateRandomBias, capSpeed.
  cbv zeta. rewrite <- (id_applyRules rules args b).
  destruct (Rlt_dec _ (length (velocity (applyRules rules args b)))); reflexivity.
Qed.

Lemma getWorldByName_None_iff (worlds : list World) (n : string) :
  getWorldByName worlds n = None <-> ~ In n (getNames worlds).
Proof.
  unfold getNames. induction worlds as [|w ws IH]; simpl.
  - tauto.
  - destruct (String.eqb_spec (name w) n) as [E|NE].
    + split; [discriminate|]. intros H; exfalso; apply H; left; exact E.
    + rewrite IH. intuition.
Qed.

Lemma getWorldByName_Some (worlds : list World) (n : string) (w : World) :
  getWorldByName worlds n = Some w -> In w worlds /\ name w = n.
Proof.
  induction worlds as [|w' ws IH]; simpl; [discriminate|].
  destruct (String.eqb_spec (name w') n) as [E|NE].
  - intros H; injection H as <-. auto.
  - intros H. destruct (IH H). auto.
Qed.

Lemma addBoids_names (randomPosAndVel : nat -> Bounds3D -> Vector3 * Vector3)
    (k : nat) (st : State) :
  worlds (addBoids randomPosAndVel k st) = worlds st
  /\ currentWorldName (addBoids randomPosAndVel k st) = currentWorldName st
  /\ currentRendering (addBoids randomPosAndVel k st) = currentRendering st.
Proof.
  revert st; induction k as [|k IH]; intros st; simpl; [auto|].
  destruct (IH (mkState (worlds st) (currentWorldName st) (currentRendering st)
                (boids st ++ [generateBoid randomPosAndVel (nextBoidId st)
                                (worldDimens (simParams st))])
                (S (nextBoidId st)) (simParams st) (obstacleAvoidWorld st)))
    as (H1 & H2 & H3).
  simpl in *. auto.
Qed.

Lemma updateBoidCount_names (randomPosAndVel : nat -> Bounds3D -> Vector3 * Vector3)
    (st : State) :
  worlds (updateBoidCount randomPosAndVel st) = worlds st
  /\ currentWorldName (updateBoidCount randomPosAndVel st) = currentWorldName st
  /\ currentRendering (updateBoidCount randomPosAndVel st) = currentRendering st
  /\ simParams (updateBoidCount randomPosAndVel st) = simParams st.
Proof.
  destruct (updateBoidCount_shape randomPosAndVel st)
    as [(_ & ->)|(_ & k & k2 & -> & _)]; [auto|].
  unfold set_boids; cbn [worlds currentWorldName currentRendering simParams].
  destruct (addBoids_names randomPosAndVel k st) as (H1 & H2 & H3).
  rewrite H1, H2, H3, (proj1 (addBoids_fields _ _ _)). auto.
Qed.

Lemma idsFresh_map (bs : list Boid) (n : nat) :
  idsFresh bs n <-> NoDup (map id bs) /\ Forall (fun i => (i < n)%nat) (map id bs).
Proof. unfold idsFresh. rewrite Forall_map. tauto. Qed.

Lemma idsFresh_nil (n : nat) : idsFresh [] n.
Proof. split; constructor. Qed.

Lemma idsFresh_firstn (bs : list Boid) (n m : nat) :
  idsFresh bs n -> idsFresh (firstn m bs) n.
Proof.
  intros [Hd Hf]. rewrite <- (firstn_skipn m bs) in Hd, Hf.
  rewrite map_app in Hd. apply Forall_app in Hf.
  split; [eapply NoDup_app_remove_r; exact Hd | tauto].
Qed.

Lemma idsFresh_addBoids (randomPosAndVel : nat -> Bounds3D -> Vector3 * Vector3)
    (k : nat) (st : State) :
  idsFresh (boids st) (nextBoidId st) ->
  idsFresh (boids (addBoids randomPosAndVel k st)) (nextBoidId (addBoids randomPosAndVel k st)).
Proof.
  destruct (addBoids_fields randomPosAndVel k st) as (_ & _ & Hn & Hb).
  rewrite Hn, Hb, !idsFresh_map.
  assert (Hm : map id (map (fun i => generateBoid randomPosAndVel i (worldDimens (simParams st)))
                         (seq (nextBoidId st) k)) = seq (nextBoidId st) k).
  { rewrite map_map. erewrite map_ext; [apply map_id|].
    intros i. apply id_generateBoid. }
  rewrite map_app, Hm. intros [Hd Hf]. split.
  - apply NoDup_app; [exact Hd | apply seq_NoDup|].
    intros i Hi Hs. rewrite Forall_forall in Hf. specialize (Hf i Hi).
    apply in_seq in Hs. lia.
  - apply Forall_app. split.
    + eapply Forall_impl; [|exact Hf]. intros i Hi; simpl in Hi. lia.
    + apply Forall_forall. intros i Hs. apply in_seq in Hs. lia.
Qed.

Lemma idsFresh_updateBoidCount (randomPosAndVel : nat -> Bounds3D -> Vector3 * Vector3)
    (st : State) :
  idsFresh (boids st) (nextBoidId st) ->
  idsFresh (boids (updateBoidCount randomPosAndVel st))
           (nextBoidId (updateBoidCount randomPosAndVel st)).
Proof.
  intros H. destruct (updateBoidCount_prefix randomPosAndVel st) as (j & ka & Hb & Hn).
  rewrite Hb, Hn. apply idsFresh_firstn.
  destruct (addBoids_fields randomPosAndVel ka st) as (_ & _ & Hn' & Hb').
  rewrite <- Hn', <- Hb'. apply idsFresh_addBoids. exact H.
Qed.

Lemma splice_nth (bs : list Boid) (i : nat) (x y : Boid) :
  nth_error bs i = Some x ->
  exists l1 l2, bs = l1 ++ x :: l2 /\ firstn i bs ++ y :: skipn (S i) bs = l1 ++ y :: l2.
Proof.
  intros H. destruct (nth_error_split bs i H) as (l1 & l2 & -> & <-).
  exists l1, l2. split; [reflexivity|].
  rewrite firstn_app, Nat.sub_diag, firstn_all, skipn_app.
  replace (S (List.length l1) - List.length l1)%nat with 1%nat by lia.
  rewrite skipn_all2 by lia. simpl. rewrite app_nil_r. reflexivity.
Qed.

Lemma updateBoidsFrom_fields (boidUpdate : World -> Boid -> RuleArguments -> Boid)
    (k i : nat) (st : State) :
  let st' := updateBoidsFrom boidUpdate k i st in
  worlds st' = worlds st /\ currentWorldName st' = currentWorldName st
  /\ currentRendering st' = currentRendering st /\ nextBoidId st' = nextBoidId st
  /\ simParams st' = simParams st /\ obstacleAvoidWorld st' = obstacleAvoidWorld st
  /\ List.length (boids st') = List.length (boids st)
  /\ ((forall w b a, id (boidUpdate w b a) = id b) -> map id (boids st') = map id (boids st)).
Proof.
  revert i st; induction k as [|k IH]; intros i st; cbn [updateBoidsFrom]; [auto 10|].
  destruct (nth_error (boids st) i) as [x|] eqn:Hx; [|auto 10].
  destruct (splice_nth (boids st) i x
              (boidUpdate (obstacleAvoidWorld st) x
                 (mkArgs (getBoidNeighbours st x) (simParams st))) Hx) as (l1 & l2 & Hbs & Hsp).
  rewrite Hsp.
  destruct (IH (S i) (set_boids st (l1 ++ boidUpdate (obstacleAvoidWorld st) x
                 (mkArgs (getBoidNeighbours st x) (simParams st)) :: l2)))
    as (H1 & H2 & H3 & H4 & H5 & H6 & H7 & H8).
  cbn [worlds currentWorldName currentRendering nextBoidId simParams obstacleAvoidWorld
       boids set_boids] in *.
  repeat split; try assumption.
  - rewrite H7, Hbs, !length_app. reflexivity.
  - intros Hid. rewrite (H8 Hid), Hbs, !map_app. cbn [map]. rewrite Hid. reflexivity.
Qed.

Lemma reloadIfNeeded_cases (get3DBoundaries : World -> Bounds3D) (st st1 : State) :
  reloadIfNeeded get3DBoundaries st = Some st1 ->
  (st1 = st /\ currentWorldName st = worldName (simParams st)
   /\ currentRendering st = rendering (simParams st))
  \/ reloadWorld get3DBoundaries st = Some st1.
Proof.
  unfold reloadIfNeeded.
  destruct (String.eqb_spec (currentWorldName st) (worldName (simParams st)));
    destruct (String.eqb_spec (currentRendering st) (rendering (simParams st)));
    simpl; intros H; auto.
  left. injection H as <-. auto.
Qed.

Lemma reloadWorld_fields (get3DBoundaries : World -> Bounds3D) (st st1 : State) :
  reloadWorld get3DBoundaries st = Some st1 ->
  boids st1 = [] /\ nextBoidId st1 = nextBoidId st /\ worlds st1 = worlds st
  /\ boidCount (simParams st1) = boidCount (simParams st)
  /\ worldName (simParams st1) = worldName (simParams st)
  /\ rendering (simParams st1) = rendering (simParams st)
  /\ currentWorldName st1 = worldName (simParams st1)
  /\ currentRendering st1 = rendering (simParams st1).
Proof.
  unfold reloadWorld. destruct (getWorldByName _ _); [|discriminate].
  intros H; injection H as <-. simpl. auto 10.
Qed.

Lemma update_unfold (get3DBoundaries : World -> Bounds3D)
    (randomPosAndVel : nat -> Bounds3D -> Vector3 * Vector3)
    (boidUpdate : World -> Boid -> RuleArguments -> Boid) (st st' : State) :
  update get3DBoundaries randomPosAndVel boidUpdate st = Some st' ->
  exists st1, reloadIfNeeded get3DBoundaries st = Some st1
    /\ st' = updateBoidsFrom boidUpdate
               (List.length (boids (updateBoidCount randomPosAndVel st1))) 0
               (updateBoidCount randomPosAndVel st1).
Proof.
  unfold update, beforeAgentUpdates.
  destruct (reloadIfNeeded _ st) as [st1|]; [|discriminate].
  intros H; injection H as <-. eauto.
Qed.

(** X10: [WorldTools.getNames] lists exactly the names [getWorldByName]
    finds: a name is listed iff the lookup returns a world of the list
    that carries that name. *)
Theorem getNames_lookup (worlds : list World) (n : string) :
  In n (getNames worlds)
  <-> exists w, getWorldByName worlds n = Some w /\ In w worlds /\ name w = n.
Proof.
  split.
  - intros Hin. destruct (getWorldByName worlds n) as [w|] eqn:E.
    + exists w. split; [reflexivity|]. exact (getWorldByName_Some worlds n w E).
    + apply getWorldByName_None_iff in E. contradiction.
  - intros (w & E & Hw & Hn). subst n. unfold getNames. apply in_map. exact Hw.
Qed.

(** X11: [update()] fails (by the exception of [getWorldByName]) exactly when
    a reload is due and the selected world name is not among
    [getNames(worlds)], the names the GUI offers. *)
Theorem update_fails_iff (get3DBoundaries : World -> Bounds3D)
    (randomPosAndVel : nat -> Bounds3D -> Vector3 * Vector3)
    (boidUpdate : World -> Boid -> RuleArguments -> Boid) (st : State) :
  update get3DBoundaries randomPosAndVel boidUpdate st = None
  <-> (currentWorldName st <> worldName (simParams st)
       \/ currentRendering st <> rendering (simParams st))
      /\ ~ In (worldName (simParams st)) (getNames (worlds st)).
Proof.
  unfold update, beforeAgentUpdates, reloadIfNeeded.
  destruct (String.eqb_spec (currentWorldName st) (worldName (simParams st))) as [E1|N1];
    destruct (String.eqb_spec (currentRendering st) (rendering (simParams st))) as [E2|N2];
    cbn [negb orb].
  - split; [discriminate|]. intros [[H|H] _]; contradiction.
  - unfold reloadWorld. rewrite <- getWorldByName_None_iff.
    destruct (getWorldByName _ _); split; try discriminate; intuition congruence.
  - unfold reloadWorld. rewrite <- getWorldByName_None_iff.
    destruct (getWorldByName _ _); split; try discriminate; intuition congruence.
  - unfold reloadWorld. rewrite <- getWorldByName_None_iff.
    destruct (getWorldByName _ _); split; try discriminate; intuition congruence.
Qed.

(** X12: [updateBoidCount()] reaches a non-negative target up to its
    fractional part: afterwards there are [floor boidCount] boids.  For
    a whole-number target a second call changes nothing. *)
Theorem updateBoidCount_reaches_target
    (randomPosAndVel : nat -> Bounds3D -> Vector3 * Vector3) (st : State) :
  0 <= boidCount (simParams st) ->
  INR (List.length (boids (updateBoidCount randomPosAndVel st))) <= boidCount (simParams st)
  < INR (List.length (boids (updateBoidCount randomPosAndVel st))) + 1
  /\ (boidCount (simParams st) = INR (List.length (boids (updateBoidCount randomPosAndVel st))) ->
      updateBoidCount randomPosAndVel (updateBoidCount randomPosAndVel st)
      = updateBoidCount randomPosAndVel st).
Proof.
  intros Hc.
  pose proof (proj1 (updateBoidCount_length_bounds randomPosAndVel st) Hc) as Hl.
  pose proof (proj1 (updateBoidCount_fields randomPosAndVel st)) as Hp.
  split; [exact Hl|]. intros E.
  set (s := updateBoidCount randomPosAndVel st) in *.
  unfold updateBoidCount at 1. rewrite Hp.
  destruct (Req_EM_T (boidCount (simParams st)) (INR (List.length (boids s)))) as [_|NE];
    [reflexivity|contradiction].
Qed.

(** X16: with a fractional target whose whole part is already reached,
    every [updateBoidCount()] generates one boid and pops it again: the
    flock is unchanged but one id is used up. *)
Theorem updateBoidCount_fractional_churn
    (randomPosAndVel : nat -> Bounds3D -> Vector3 * Vector3) (st : State) :
  INR (List.length (boids st)) < boidCount (simParams st) < INR (List.length (boids st)) + 1 ->
  boids (updateBoidCount randomPosAndVel st) = boids st
  /\ nextBoidId (updateBoidCount randomPosAndVel st) = S (nextBoidId st).
Proof.
  intros Hc.
  destruct (updateBoidCount_shape randomPosAndVel st)
    as [(E & _)|(NE & k & k2 & -> & H0 & H1 & G0 & G1)]; [lra|].
  specialize (H1 ltac:(lra)).
  set (c := boidCount (simParams st)) in *.
  set (n := List.length (boids st)) in *.
  assert (Hk : k = 1%nat) by (apply (ceil_unit k (c - INR n)); lra).
  subst k. simpl INR in G0, G1.
  specialize (G1 ltac:(lra)).
  assert (Hk2 : k2 = 1%nat) by (apply (ceil_unit k2 (- (c - INR n - 1))); lra).
  subst k2.
  destruct (addBoids_fields randomPosAndVel 1 st) as (_ & _ & Hn & Hb).
  cbn [boids nextBoidId set_boids]. rewrite Hb, Hn.
  split; [|lia].
  rewrite removeBoids_firstn_all, length_app. cbn [List.length map seq].
  rewrite Nat.add_sub, firstn_app, Nat.sub_diag, firstn_all. cbn [firstn].
  apply app_nil_r.
Qed.

(** X13: After a successful [update()] a non-negative target is reached
    up to its fractional part: the flock has [floor boidCount] boids,
    whatever the per-boid update does. *)
Theorem update_reaches_boidCount (get3DBoundaries : World -> Bounds3D)
    (randomPosAndVel : nat -> Bounds3D -> Vector3 * Vector3)
    (boidUpdate : World -> Boid -> RuleArguments -> Boid) (st st' : State) :
  update get3DBoundaries randomPosAndVel boidUpdate st = Some st' ->
  0 <= boidCount (simParams st) ->
  INR (List.length (boids st')) <= boidCount (simParams st) < INR (List.length (boids st')) + 1.
Proof.
  intros H Hc. destruct (update_unfold _ _ _ _ _ H) as (st1 & H1 & ->).
  destruct (updateBoidsFrom_fields boidUpdate
              (List.length (boids (updateBoidCount randomPosAndVel st1))) 0
              (updateBoidCount randomPosAndVel st1)) as (_ & _ & _ & _ & _ & _ & Hl & _).
  rewrite Hl.
  assert (Ec : boidCount (simParams st1) = boidCount (simParams st)).
  { destruct (reloadIfNeeded_cases _ _ _ H1) as [(-> & _ & _)|Hr]; [reflexivity|].
    destruct (reloadWorld_fields _ _ _ Hr) as (_ & _ & _ & Ec & _). exact Ec. }
  rewrite <- Ec in Hc |- *.
  exact (proj1 (updateBoidCount_length_bounds randomPosAndVel st1) Hc).
Qed.

(** X14: When the per-boid update keeps each boid's id (it is [readonly]),
    [update()] keeps the ids pairwise distinct and below [nextBoidId]:
    [newBoidId()] never hands out an id in use. *)
Theorem update_keeps_ids_fresh (get3DBoundaries : World -> Bounds3D)
    (randomPosAndVel : nat -> Bounds3D -> Vector3 * Vector3)
    (boidUpdate : World -> Boid -> RuleArguments -> Boid) (st st' : State) :
  (forall w b args, id (boidUpdate w b args) = id b) ->
  update get3DBoundaries randomPosAndVel boidUpdate st = Some st' ->
  idsFresh (boids st) (nextBoidId st) ->
  idsFresh (boids st') (nextBoidId st').
Proof.
  intros Hid H Hf. destruct (update_unfold _ _ _ _ _ H) as (st1 & H1 & ->).
  assert (Hf1 : idsFresh (boids st1) (nextBoidId st1)).
  { destruct (reloadIfNeeded_cases _ _ _ H1) as [(-> & _ & _)|Hr]; [exact Hf|].
    destruct (reloadWorld_fields _ _ _ Hr) as (-> & _). apply idsFresh_nil. }
  pose proof (idsFresh_updateBoidCount randomPosAndVel st1 Hf1) as Hf2.
  destruct (updateBoidsFrom_fields boidUpdate
              (List.length (boids (updateBoidCount randomPosAndVel st1))) 0
              (updateBoidCount randomPosAndVel st1)) as (_ & _ & _ & Hn & _ & _ & _ & Hm).
  rewrite idsFresh_map, Hn, (Hm Hid), <- idsFresh_map. exact Hf2.
Qed.

(** X15: After a successful [update()] the current world and rendering match
    the parameters, so the next [update()] with the same parameters does
    not reload the world. *)
Theorem update_settles_world (get3DBoundaries : World -> Bounds3D)
    (randomPosAndVel : nat -> Bounds3D -> Vector3 * Vector3)
    (boidUpdate : World -> Boid -> RuleArguments -> Boid) (st st' : State) :
  update get3DBoundaries randomPosAndVel boidUpdate st = Some st' ->
  reloadIfNeeded get3DBoundaries st' = Some st'.
Proof.
  intros H. destruct (update_unfold _ _ _ _ _ H) as (st1 & H1 & ->).
  assert (Hs : currentWorldName st1 = worldName (simParams st1)
               /\ currentRendering st1 = rendering (simParams st1)).
  { destruct (reloadIfNeeded_cases _ _ _ H1) as [(-> & A & B)|Hr]; [auto|].
    destruct (reloadWorld_fields _ _ _ Hr) as (_ & _ & _ & _ & _ & _ & A & B). auto. }
  destruct (updateBoidCount_names randomPosAndVel st1) as (_ & C1 & C2 & C3).
  destruct (updateBoidsFrom_fields boidUpdate
              (List.length (boids (updateBoidCount randomPosAndVel st1))) 0
              (updateBoidCount randomPosAndVel st1)) as (_ & D1 & D2 & _ & D3 & _).
  unfold reloadIfNeeded. rewrite D1, D2, D3, C1, C2, C3.
  destruct Hs as [-> ->]. rewrite !String.eqb_refl. reflexivity.
Qed.

(** ** Witnesses of the further simulation-loop theorems *)

Lemma update_reaches_boidCount_witness :
  update Examples.boundsOf Examples.draw Examples.plainUpdate Examples.switched
    = Some Examples.switchedUpdated
  /\ 0 <= boidCount (simParams Examples.switched)
  /\ INR (List.length (boids Examples.switchedUpdated)) <= boidCount (simParams Examples.switched)
     < INR (List.length (boids Examples.switchedUpdated)) + 1.
Proof.
  assert (H : update Examples.boundsOf Examples.draw Examples.plainUpdate Examples.switched
              = Some Examples.switchedUpdated) by reflexivity.
  assert (Hc : 0 <= boidCount (simParams Examples.switched)) by (simpl; lra).
  split; [exact H|]. split; [exact Hc|].
  exact (update_reaches_boidCount _ _ _ _ _ H Hc).
Defined.

Lemma updateBoidCount_reaches_target_witness :
  0 <= boidCount (simParams Examples.fractional)
  /\ INR (List.length (boids (updateBoidCount Examples.draw Examples.fractional)))
     <= boidCount (simParams Examples.fractional)
     < INR (List.length (boids (updateBoidCount Examples.draw Examples.fractional))) + 1
  /\ (boidCount (simParams Examples.fractional)
      = INR (List.length (boids (updateBoidCount Examples.draw Examples.fractional))) ->
      updateBoidCount Examples.draw (updateBoidCount Examples.draw Examples.fractional)
      = updateBoidCount Examples.draw Examples.fractional).
Proof.
  assert (Hc : 0 <= boidCount (simParams Examples.fractional)) by (simpl; lra).
  split; [exact Hc|]. exact (updateBoidCount_reaches_target _ _ Hc).
Defined.

Lemma updateBoidCount_fractional_churn_witness :
  INR (List.length (boids Examples.fractional)) < boidCount (simParams Examples.fractional)
    < INR (List.length (boids Examples.fractional)) + 1
  /\ boids (updateBoidCount Examples.draw Examples.fractional) = boids Examples.fractional
  /\ nextBoidId (updateBoidCount Examples.draw Examples.fractional)
     = S (nextBoidId Examples.fractional).
Proof.
  assert (Hc : INR (List.length (boids Examples.fractional))
               < boidCount (simParams Examples.fractional)
               < INR (List.length (boids Examples.fractional)) + 1) by (simpl; lra).
  split; [exact Hc|]. exact (updateBoidCount_fractional_churn _ _ Hc).
Defined.

Lemma update_keeps_ids_fresh_witness :
  (forall w b args, id (Examples.plainUpdate w b args) = id b)
  /\ update Examples.boundsOf Examples.draw Examples.plainUpdate Examples.switched
     = Some Examples.switchedUpdated
  /\ idsFresh (boids Examples.switched) (nextBoidId Examples.switched)
  /\ idsFresh (boids Examples.switchedUpdated) (nextBoidId Examples.switchedUpdated).
Proof.
  assert (H1 : forall w b args, id (Examples.plainUpdate w b args) = id b)
    by (intros; apply id_updateAndMove).
  assert (H2 : update Examples.boundsOf Examples.draw Examples.plainUpdate Examples.switched
               = Some Examples.switchedUpdated) by reflexivity.
  assert (H3 : idsFresh (boids Examples.switched) (nextBoidId Examples.switched)).
  { split; simpl.
    - repeat constructor; simpl; intuition discriminate.
    - repeat constructor. }
  split; [exact H1|]. split; [exact H2|]. split; [exact H3|].
  exact (update_keeps_ids_fresh _ _ _ _ _ H1 H2 H3).
Defined.

Lemma update_settles_world_witness :
  update Examples.boundsOf Examples.draw Examples.plainUpdate Examples.switched
    = Some Examples.switchedUpdated
  /\ reloadIfNeeded Examples.boundsOf Examples.switchedUpdated = Some Examples.switchedUpdated.
Proof.
  assert (H : update Examples.boundsOf Examples.draw Examples.plainUpdate Examples.switched
              = Some Examples.switchedUpdated) by reflexivity.
  split; [exact H|]. exact (update_settles_world _ _ _ _ _ H).
Defined.
End BoidSimulationExtras.

(** ** Witnesses of the further tick, rule and generator theorems *)

Lemma capSpeed_idempotent_witness :
  0 <= 1/2 /\ capSpeed (1/2) (capSpeed (1/2) Examples.boidA) = capSpeed (1/2) Examples.boidA.
Proof.
  assert (H : 0 <= 1/2) by lra.
  split; [exact H|]. exact (capSpeed_idempotent (1/2) Examples.boidA H).
Defined.

Lemma capSpeed_keeps_direction_witness :
  0 < 1/2 /\ exists k, 0 < k <= 1
    /\ velocity (capSpeed (1/2) Examples.boidA) = multiplyScalar (velocity Examples.boidA) k.
Proof.
  assert (H : 0 < 1/2) by lra.
  split; [exact H|]. exact (capSpeed_keeps_direction (1/2) Examples.boidA H).
Defined.

Lemma updateRandomBias_within_limit_witness :
  let b := mkBoid 0 vzero (mkRot 0 0) vzero (mkV (1/10) 0 0) in
  (1/10 < length (vadd (randomBias b)
                   (mkV (1 * (1/100) - 1/100 / 2) (1/2 * (1/100) - 1/100 / 2)
                        (1/2 * (1/100) - 1/100 / 2))))
  /\ 0 <= 1/100 /\ 1/100 <= 99 * (1/10)
  /\ 0 <= vx (mkV 1 (1/2) (1/2)) <= 1 /\ 0 <= vy (mkV 1 (1/2) (1/2)) <= 1
  /\ 0 <= vz (mkV 1 (1/2) (1/2)) <= 1
  /\ length (randomBias b) <= 1/10
  /\ length (randomBias (updateRandomBias (mkV 1 (1/2) (1/2)) (1/100) (1/10) b)) <= 1/10.
Proof.
  cbv zeta.
  assert (H0 : 1/10 < length (vadd (randomBias (mkBoid 0 vzero (mkRot 0 0) vzero (mkV (1/10) 0 0)))
                   (mkV (1 * (1/100) - 1/100 / 2) (1/2 * (1/100) - 1/100 / 2)
                        (1/2 * (1/100) - 1/100 / 2)))).
  { assert (E : vadd (randomBias (mkBoid 0 vzero (mkRot 0 0) vzero (mkV (1/10) 0 0)))
                  (mkV (1 * (1/100) - 1/100 / 2) (1/2 * (1/100) - 1/100 / 2)
                       (1/2 * (1/100) - 1/100 / 2)) = mkV (21/200) 0 0)
      by (unfold vadd; simpl; f_equal; field).
    rewrite E, length_x_axis, Rabs_right; lra. }
  assert (H1 : 0 <= 1/100) by lra.
  assert (H2 : 1/100 <= 99 * (1/10)) by lra.
  assert (H3 : 0 <= vx (mkV 1 (1/2) (1/2)) <= 1) by (simpl; lra).
  assert (H4 : 0 <= vy (mkV 1 (1/2) (1/2)) <= 1) by (simpl; lra).
  assert (H5 : 0 <= vz (mkV 1 (1/2) (1/2)) <= 1) by (simpl; lra).
  assert (H6 : length (randomBias (mkBoid 0 vzero (mkRot 0 0) vzero (mkV (1/10) 0 0))) <= 1/10)
    by (simpl; rewrite length_x_axis, Rabs_right; lra).
  split; [exact H0|]. split; [exact H1|]. split; [exact H2|]. split; [exact H3|].
  split; [exact H4|]. split; [exact H5|]. split; [exact H6|].
  exact (updateRandomBias_within_limit _ _ _ _ H1 H2 H3 H4 H5 H6).
Defined.

Lemma pointInDirection_scale_witness :
  0 < 2 /\ pointInDirection (multiplyScalar (mkV 1 (-1) 3) 2) = pointInDirection (mkV 1 (-1) 3).
Proof.
  assert (H : 0 < 2) by lra.
  split; [exact H|]. exact (pointInDirection_scale (mkV 1 (-1) 3) 2 H).
Defined.

Lemma cohesion_finite_unit_witness :
  let args := mkArgs [Examples.boidB] Examples.params0 in
  (neighbours args = []
   \/ dropoffWeightSum towardsOther linearDropoff50 Examples.boidA (neighbours args) <> 0)
  /\ exists v, cohesion_calculateVector towardsOther linearDropoff50 3 Examples.boidA args = Some v
     /\ (length v = 0 \/ length v = Rabs 3).
Proof.
  cbv zeta.
  assert (H : neighbours (mkArgs [Examples.boidB] Examples.params0) = []
              \/ dropoffWeightSum towardsOther linearDropoff50 Examples.boidA
                   (neighbours (mkArgs [Examples.boidB] Examples.params0)) <> 0).
  { right.
    assert (Ht : towardsOther Examples.boidA Examples.boidB = mkV 10 0 0)
      by (unfold towardsOther, vsub; simpl; f_equal; ring).
    unfold dropoffWeightSum; simpl. rewrite Ht, length_x_axis, Rabs_right by lra.
    unfold linearDropoff50. destruct (Rle_dec 50 10); lra. }
  split; [exact H|].
  exact (cohesion_finite_unit towardsOther linearDropoff50 3 Examples.boidA _ H).
Defined.

Lemma obstacleAvoidance_bounded_witness :
  1 <= 3
  /\ length (obstacleAvoidance_calculateVector 3 10 Examples.worldObstacles Examples.boidB)
     <= Rabs 10 * INR (List.length (cylinders Examples.worldObstacles)) * Rpower 3 10.
Proof.
  assert (H : 1 <= 3) by lra.
  split; [exact H|].
  exact (obstacleAvoidance_bounded 3 10 Examples.worldObstacles Examples.boidB H).
Defined.

Lemma generateWithRandomPosAndVel_in_bounds_witness :
  let r := mkV (1/2) (1/4) (3/4) in
  let pb := positionBoundsOrDefault None in
  let vb := velocityBoundsOrDefault None in
  (0 <= vx r < 1 /\ 0 <= vy r < 1 /\ 0 <= vz r < 1
   /\ xMin pb <= xMax pb /\ yMin pb <= yMax pb /\ zMin pb <= zMax pb
   /\ xMin vb <= xMax vb /\ yMin vb <= yMax vb /\ zMin vb <= zMax vb)
  /\ let b := generateWithRandomPosAndVel 7 None None r r in
     id b = 7%nat /\ randomBias b = vzero
     /\ xMin pb <= vx (position b) <= xMax pb
     /\ yMin pb <= vy (position b) <= yMax pb
     /\ zMin pb <= vz (position b) <= zMax pb
     /\ xMin vb <= vx (velocity b) <= xMax vb
     /\ yMin vb <= vy (velocity b) <= yMax vb
     /\ zMin vb <= vz (velocity b) <= zMax vb.
Proof.
  cbv zeta.
  assert (Hx : 0 <= vx (mkV (1/2) (1/4) (3/4)) < 1) by (simpl; lra).
  assert (Hy : 0 <= vy (mkV (1/2) (1/4) (3/4)) < 1) by (simpl; lra).
  assert (Hz : 0 <= vz (mkV (1/2) (1/4) (3/4)) < 1) by (simpl; lra).
  assert (P1 : xMin (positionBoundsOrDefault None) <= xMax (positionBoundsOrDefault None))
    by (simpl; lra).
  assert (P2 : yMin (positionBoundsOrDefault None) <= yMax (positionBoundsOrDefault None))
    by (simpl; lra).
  assert (P3 : zMin (positionBoundsOrDefault None) <= zMax (positionBoundsOrDefault None))
    by (simpl; lra).
  assert (V1 : xMin (velocityBoundsOrDefault None) <= xMax (velocityBoundsOrDefault None))
    by (simpl; lra).
  assert (V2 : yMin (velocityBoundsOrDefault None) <= yMax (velocityBoundsOrDefault None))
    by (simpl; lra).
  assert (V3 : zMin (velocityBoundsOrDefault None) <= zMax (velocityBoundsOrDefault None))
    by (simpl; lra).
  split; [exact (conj Hx (conj Hy (conj Hz (conj P1 (conj P2 (conj P3 (conj V1 (conj V2 V3))))))))|].
  exact (generateWithRandomPosAndVel_in_bounds 7 None None _ _
           Hx Hy Hz Hx Hy Hz P1 P2 P3 V1 V2 V3).
Defined.
